(** * llama_tutorial: agent sessions with tools, state and persistence

    A shallow embedding of the tutorial scripts [1_basic_agent.py],
    [3_state.py] and [3a_tools_and_state.py]:

    - the arithmetic tools [add] and [multiply];
    - the state tool [set_name];
    - [load_context] / [save_context] over the file [history.json];
    - the interactive [chat_loop].

    The scripts drive an agent engine (Session Context, Turn Executor,
    Capability Registry) and Python's [json] module, neither of which is part
    of the scripts.  Python's [json.dump] / [json.load] are embedded at the
    level of lexical tokens; the engine is embedded from its specification
    (every such definition says so). *)

From Stdlib Require Import ZArith Ascii String Lia.
From Stdlib Require Import SpecFloat.
From Stdlib Require QArith.
From stdpp Require Import base option list strings pretty gmap fin_maps.

Set Warnings "-register-all".
Open Scope string_scope.
Open Scope list_scope.
Open Scope nat_scope.

(** ** JSON values

    The Python values [json] can write: [None], [bool], [int], [str], [list]
    and [dict] with string keys.  A [dict] is a finite map: keys are unique
    and two dicts with the same items are equal, whatever the insertion
    order.  Numbers are Python [int]s. *)

Inductive json : Type :=
  | JNull
  | JBool (b : bool)
  | JInt (n : Z)
  | JStr (s : string)
  | JList (l : list json)
  | JDict (m : gmap string json).

Fixpoint json_size (v : json) : nat :=
  match v with
  | JList l => S (foldr (λ x acc, json_size x + acc) 0 l)
  | JDict m => S (map_fold (λ _ x acc, json_size x + acc) 0 m)
  | _ => 1
  end.

(** ** Exceptions and results *)

Inductive exn : Type :=
  | JSONDecodeError
  | UnsupportedVersion
  | MalformedRecord
  | EOFError
  | KeyError (key : string)
  | TypeError
  | StepLimitExceeded
  | LLMTransportError
  | CapabilityNotFound (name : string)
  | ToolExecutionError (name : string)
  | OverflowError.

Inductive result (A : Type) : Type :=
  | Ok (a : A)
  | Raised (e : exn).
Arguments Ok {A} a.
Arguments Raised {A} e.

Definition bind {A B} (r : result A) (k : A → result B) : result B :=
  match r with
  | Ok a => k a
  | Raised e => Raised e
  end.

Notation "'let*' x ':=' r 'in' k" := (bind r (λ x, k))
  (at level 10, x name, r at level 100, k at level 200).

(** ** The text of [history.json]

    The file is the sequence of lexical tokens [json.dump] writes.  A
    [TNewline n] is a line break followed by [n] spaces; the spelling of a
    scalar (digits, string escapes) is below this model. *)

Inductive token : Type :=
  | TNull | TTrue | TFalse
  | TInt (n : Z)
  | TStr (s : string)
  | TLBracket | TRBracket
  | TLBrace | TRBrace
  | TComma | TColon
  | TNewline (spaces : nat).

Definition newline (indent : option nat) (level : nat) : list token :=
  match indent with
  | Some n => [TNewline (n * level)]
  | None => []
  end.

(** An opening token, the items separated by commas, a closing token; with
    an indent every item starts on a line of its own and the closing token
    goes back to the enclosing level.  The empty container is written
    without any line break. *)
Definition container (opening closing : token) (indent : option nat)
    (level : nat) (items : list (list token)) : list token :=
  match items with
  | [] => [opening; closing]
  | first :: others =>
      opening :: newline indent (S level) ++ first
        ++ flat_map (λ item, TComma :: newline indent (S level) ++ item) others
        ++ newline indent level ++ [closing]
  end.

(** The tokens of a value.  The items of a dict are written in the order of
    the map (Python writes them in insertion order, which the value of a
    dict does not depend on). *)
Fixpoint encode (indent : option nat) (level : nat) (v : json) : list token :=
  match v with
  | JNull => [TNull]
  | JBool true => [TTrue]
  | JBool false => [TFalse]
  | JInt n => [TInt n]
  | JStr s => [TStr s]
  | JList l =>
      container TLBracket TRBracket indent level
        (map (encode indent (S level)) l)
  | JDict m =>
      container TLBrace TRBrace indent level
        (map_fold (λ k x acc,
           (TStr k :: TColon :: encode indent (S level) x) :: acc) [] m)
  end.

(** [json.dump(obj, fp, indent=n)]: the tokens written to [fp]. *)
Definition json_dump (indent : nat) (v : json) : list token :=
  encode (Some indent) 0 v.

Definition is_newline (t : token) : bool :=
  match t with
  | TNewline _ => true
  | _ => false
  end.

(** White space carries no information for the decoder. *)
Definition strip (ts : list token) : list token :=
  List.filter (λ t, negb (is_newline t)) ts.
Arguments strip : simpl never.

(** [dict(pairs)]: a later pair overrides an earlier one with the same key. *)
Definition dict_of_pairs (kvs : list (string * json)) : gmap string json :=
  foldl (λ m kv, <[kv.1 := kv.2]> m) ∅ kvs.

(** The decoder: recursive descent over the tokens.  [fuel] bounds the
    recursion depth; [json_load] supplies enough of it. *)
Fixpoint parse_value (fuel : nat) (ts : list token) : option (json * list token) :=
  match fuel with
  | 0 => None
  | S fuel =>
      match ts with
      | TNull :: r => Some (JNull, r)
      | TTrue :: r => Some (JBool true, r)
      | TFalse :: r => Some (JBool false, r)
      | TInt n :: r => Some (JInt n, r)
      | TStr s :: r => Some (JStr s, r)
      | TLBracket :: TRBracket :: r => Some (JList [], r)
      | TLBracket :: r =>
          match parse_items fuel r with
          | Some (l, r') => Some (JList l, r')
          | None => None
          end
      | TLBrace :: TRBrace :: r => Some (JDict ∅, r)
      | TLBrace :: r =>
          match parse_members fuel r with
          | Some (kvs, r') => Some (JDict (dict_of_pairs kvs), r')
          | None => None
          end
      | _ => None
      end
  end
with parse_items (fuel : nat) (ts : list token) : option (list json * list token) :=
  match fuel with
  | 0 => None
  | S fuel =>
      match parse_value fuel ts with
      | Some (v, TComma :: r) =>
          match parse_items fuel r with
          | Some (vs, r') => Some (v :: vs, r')
          | None => None
          end
      | Some (v, TRBracket :: r) => Some ([v], r)
      | _ => None
      end
  end
with parse_members (fuel : nat) (ts : list token)
    : option (list (string * json) * list token) :=
  match fuel with
  | 0 => None
  | S fuel =>
      match ts with
      | TStr k :: TColon :: r =>
          match parse_value fuel r with
          | Some (v, TComma :: r') =>
              match parse_members fuel r' with
              | Some (kvs, r'') => Some ((k, v) :: kvs, r'')
              | None => None
              end
          | Some (v, TRBrace :: r') => Some ([(k, v)], r')
          | _ => None
          end
      | _ => None
      end
  end.

(** [json.load(fp)]: one value, and nothing after it. *)
Definition json_load (text : list token) : result json :=
  let ts := strip text in
  match parse_value (S (length ts)) ts with
  | Some (v, []) => Ok v
  | _ => Raised JSONDecodeError
  end.

(** ** The agent engine: data model

    The scripts import [Context], [JsonSerializer] and [AgentWorkflow] from
    the engine and only call them.  The definitions of this part follow the
    engine's specification. *)

(** Modelled from the spec: the roles of the engine's messages, absent from
    the scripts.  "Message: {role (user/assistant/tool), content, optional
    structured tool-call directive}". *)
Inductive role : Type := User | Assistant | Tool.

(** Modelled from the spec: the "structured tool-call directive" of a
    message, absent from the scripts: "name + argument mapping per call". *)
Record ToolCall : Type := {
  call_name : string;
  call_arguments : gmap string json
}.

(** Modelled from the spec: the engine's [Message], absent from the scripts.
    The content is a JSON value: a text, or the result payload of a tool. *)
Record Message : Type := {
  msg_role : role;
  msg_content : json;
  msg_directive : option ToolCall
}.

(** Modelled from the spec: the status of a tool invocation, absent from the
    scripts.  "ToolInvocation: {tool name, arguments, result payload, status:
    pending/success/error}". *)
Inductive invocation_status : Type := Pending | Success | Error.

(** Modelled from the spec: the engine's [ToolInvocation], absent from the
    scripts. *)
Record ToolInvocation : Type := {
  inv_name : string;
  inv_arguments : gmap string json;
  inv_result : json;
  inv_status : invocation_status
}.

(** Modelled from the spec: the states of the Turn Executor, absent from the
    scripts.  "States: AWAITING_ORACLE, EXECUTING_TOOLS, STREAMING_FINAL,
    DONE, FAILED.  Initial: AWAITING_ORACLE.  Terminal: DONE, FAILED." *)
Inductive turn_status : Type :=
  | AWAITING_ORACLE
  | EXECUTING_TOOLS
  | STREAMING_FINAL
  | DONE
  | FAILED.

(** Modelled from the spec: "Terminal: DONE, FAILED". *)
Definition is_terminal (s : turn_status) : bool :=
  match s with
  | DONE | FAILED => true
  | _ => false
  end.

(** Modelled from the spec: the run metadata of a context, absent from the
    scripts: "metadata: {iteration count, turn status}". *)
Record Metadata : Type := {
  iteration_count : nat;
  status : turn_status
}.

(** Modelled from the spec: the engine's [Context] class is absent from the
    scripts.  "SessionContext: {ordered sequence of Message, state: mapping
    of string to JSON-representable value, metadata: {iteration count, turn
    status}}". *)
Record SessionContext : Type := {
  messages : list Message;
  state : gmap string json;
  metadata : Metadata
}.

(** Modelled from the spec: [Context.get] is absent from the scripts.
    "Session Context exposes get(key)"; a key that was never set is an
    error. *)
Definition ctx_get (key : string) (ctx : SessionContext) : result json :=
  match state ctx !! key with
  | Some v => Ok v
  | None => Raised (KeyError key)
  end.

(** Modelled from the spec: [Context.set] is absent from the scripts.
    "set(key, value)". *)
Definition ctx_set (key : string) (value : json) (ctx : SessionContext)
    : SessionContext :=
  {| messages := messages ctx;
     state := <[key := value]> (state ctx);
     metadata := metadata ctx |}.

(** Modelled from the spec: the history is "append-only; history order is
    never rewritten". *)
Definition append_message (m : Message) (ctx : SessionContext) : SessionContext :=
  {| messages := messages ctx ++ [m];
     state := state ctx;
     metadata := metadata ctx |}.

(** Modelled from the spec: the executor records the iteration count and the
    turn status in the context. *)
Definition set_metadata (md : Metadata) (ctx : SessionContext) : SessionContext :=
  {| messages := messages ctx; state := state ctx; metadata := md |}.

(** ** The agent engine: snapshots *)

(** Modelled from the spec: the record format of [Context.to_dict] is absent
    from the scripts.  "The serialized record is versioned: {version,
    messages[], state{}, metadata{}}". *)
Definition SNAPSHOT_VERSION : Z := 1.

(** Modelled from the spec: the three roles as they are written in a
    record. *)
Definition role_name (r : role) : string :=
  match r with
  | User => "user"
  | Assistant => "assistant"
  | Tool => "tool"
  end.

(** Modelled from the spec: the role a record names, if it names one. *)
Definition role_of_name (s : string) : option role :=
  if String.eqb s "user" then Some User
  else if String.eqb s "assistant" then Some Assistant
  else if String.eqb s "tool" then Some Tool
  else None.

(** Modelled from the spec: the five states as they are written in a
    record. *)
Definition status_name (s : turn_status) : string :=
  match s with
  | AWAITING_ORACLE => "AWAITING_ORACLE"
  | EXECUTING_TOOLS => "EXECUTING_TOOLS"
  | STREAMING_FINAL => "STREAMING_FINAL"
  | DONE => "DONE"
  | FAILED => "FAILED"
  end.

(** Modelled from the spec: the state a record names, if it names one. *)
Definition status_of_name (s : string) : option turn_status :=
  if String.eqb s "AWAITING_ORACLE" then Some AWAITING_ORACLE
  else if String.eqb s "EXECUTING_TOOLS" then Some EXECUTING_TOOLS
  else if String.eqb s "STREAMING_FINAL" then Some STREAMING_FINAL
  else if String.eqb s "DONE" then Some DONE
  else if String.eqb s "FAILED" then Some FAILED
  else None.

(** Modelled from the spec: a tool-call directive as a JSON mapping. *)
Definition call_to_json (c : ToolCall) : json :=
  JDict {[ "name" := JStr (call_name c);
           "arguments" := JDict (call_arguments c) ]}.

(** Modelled from the spec: the directive a JSON value holds, if it holds
    one. *)
Definition call_of_json (v : json) : option ToolCall :=
  match v with
  | JDict r =>
      match r !! "name", r !! "arguments" with
      | Some (JStr n), Some (JDict args) =>
          Some {| call_name := n; call_arguments := args |}
      | _, _ => None
      end
  | _ => None
  end.

(** Modelled from the spec: an entry of "messages[]": role, content and
    directive ([null] when the message has none). *)
Definition message_to_json (m : Message) : json :=
  JDict {[ "role" := JStr (role_name (msg_role m));
           "content" := msg_content m;
           "tool_call" := match msg_directive m with
                          | Some c => call_to_json c
                          | None => JNull
                          end ]}.

(** Modelled from the spec: the message a JSON value holds, if it holds
    one. *)
Definition message_of_json (v : json) : option Message :=
  match v with
  | JDict r =>
      match r !! "role", r !! "content", r !! "tool_call" with
      | Some (JStr rn), Some c, Some JNull =>
          match role_of_name rn with
          | Some ro => Some {| msg_role := ro; msg_content := c; msg_directive := None |}
          | None => None
          end
      | Some (JStr rn), Some c, Some tc =>
          match role_of_name rn, call_of_json tc with
          | Some ro, Some call =>
              Some {| msg_role := ro; msg_content := c; msg_directive := Some call |}
          | _, _ => None
          end
      | _, _, _ => None
      end
  | _ => None
  end.

(** Modelled from the spec: the "metadata{}" of a record. *)
Definition metadata_to_json (md : Metadata) : json :=
  JDict {[ "iteration_count" := JInt (Z.of_nat (iteration_count md));
           "turn_status" := JStr (status_name (status md)) ]}.

(** Modelled from the spec: the metadata a JSON value holds, if it holds
    them; an iteration count is not negative. *)
Definition metadata_of_json (v : json) : option Metadata :=
  match v with
  | JDict r =>
      match r !! "iteration_count", r !! "turn_status" with
      | Some (JInt n), Some (JStr sn) =>
          match status_of_name sn with
          | Some s =>
              if (0 <=? n)%Z
              then Some {| iteration_count := Z.to_nat n; status := s |}
              else None
          | None => None
          end
      | _, _ => None
      end
  | _ => None
  end.

(** Modelled from the spec: [Context.to_dict] is absent from the scripts.
    "snapshot() -> serializable record" of the shape "{version, messages[],
    state{}, metadata{}}". *)
Definition to_dict (ctx : SessionContext) : json :=
  JDict {[ "version" := JInt SNAPSHOT_VERSION;
           "messages" := JList (map message_to_json (messages ctx));
           "state" := JDict (state ctx);
           "metadata" := metadata_to_json (metadata ctx) ]}.

(** Modelled from the spec: [Context.from_dict] is absent from the scripts.
    "restore(record) -> SessionContext"; "Loading a record with an
    unrecognized version fails with UnsupportedVersion rather than
    attempting a lossy best-effort parse." *)
Definition from_dict (record : json) : result SessionContext :=
  match record with
  | JDict r =>
      match r !! "version" with
      | Some (JInt v) =>
          if (v =? SNAPSHOT_VERSION)%Z then
            match r !! "messages", r !! "state", r !! "metadata" with
            | Some (JList ms), Some (JDict st), Some md =>
                match mapM message_of_json ms, metadata_of_json md with
                | Some msgs, Some meta =>
                    Ok {| messages := msgs; state := st; metadata := meta |}
                | _, _ => Raised MalformedRecord
                end
            | _, _, _ => Raised MalformedRecord
            end
          else Raised UnsupportedVersion
      | _ => Raised UnsupportedVersion
      end
  | _ => Raised MalformedRecord
  end.

(** ** The agent engine: Capability Registry *)

(** Modelled from the spec: a handler receives the session context and the
    argument mapping of the call; it returns the context it leaves and a
    result payload or an error. *)
Definition Handler : Type :=
  SessionContext → gmap string json → SessionContext * result json.

(** Modelled from the spec: the engine's tool descriptors are absent from
    the scripts.  "CapabilityDescriptor: {name (unique), parameter schema,
    handler reference}". *)
Record CapabilityDescriptor : Type := {
  cap_name : string;
  cap_parameters : list string;
  cap_handler : Handler
}.

(** Modelled from the spec: "resolve(name) -> descriptor | NotFound". *)
Definition resolve (name : string) (registry : list CapabilityDescriptor)
    : option CapabilityDescriptor :=
  List.find (λ d, String.eqb (cap_name d) name) registry.

(** Modelled from the spec: "register(descriptor): fails with NameCollision
    if the tool name already exists". *)
Definition register (d : CapabilityDescriptor) (registry : list CapabilityDescriptor)
    : option (list CapabilityDescriptor) :=
  match resolve (cap_name d) registry with
  | Some _ => None
  | None => Some (registry ++ [d])
  end.

(** Modelled from the spec: "list() -> ordered sequence of descriptors, used
    to advertise available tools to the oracle each turn". *)
Definition schemas (registry : list CapabilityDescriptor)
    : list (string * list string) :=
  map (λ d, (cap_name d, cap_parameters d)) registry.

(** ** The agent engine: oracle *)

(** Modelled from the spec: the language model is an opaque oracle.
    "Response is either a textual answer (possibly delivered as a lazy,
    finite, non-restartable sequence of fragments) or one-or-more structured
    tool-call requests"; it is "fallible (network/rate-limit)", and
    [TransportFault] is a fault that outlived the retries. *)
Inductive OracleResponse : Type :=
  | Answer (fragments : list string)
  | ToolCalls (calls : list ToolCall)
  | TransportFault.

(** Modelled from the spec: "input = (message history, state snapshot,
    capability schema list)". *)
Definition Oracle : Type :=
  list Message → gmap string json → list (string * list string) → OracleResponse.

(** ** The agent engine: workflow *)

(** Modelled from the spec: the step limit of the engine, absent from the
    scripts: "max_steps (configurable, default 10)". *)
Definition DEFAULT_MAX_STEPS : nat := 10.

(** Modelled from the spec: the engine's [AgentWorkflow], absent from the
    scripts: the registry of its tools, the oracle, and what it was
    configured with. *)
Record Workflow : Type := {
  wf_registry : list CapabilityDescriptor;
  wf_llm : Oracle;
  wf_system_prompt : string;
  wf_initial_state : option json;
  wf_max_steps : nat
}.

(** Modelled from the spec: [AgentWorkflow.from_tools_or_functions] is
    absent from the scripts.  The registry is "a lookup table built before
    any turn executes", one [register] per tool in the order given;
    [max_steps] is "configurable, default 10".  [None] is a name
    collision. *)
Definition from_tools_or_functions (tools : list CapabilityDescriptor)
    (llm : Oracle) (system_prompt : string) (initial_state : option json)
    : option Workflow :=
  registry ← foldl (λ acc d, acc ≫= register d) (Some []) tools;
  Some {| wf_registry := registry;
          wf_llm := llm;
          wf_system_prompt := system_prompt;
          wf_initial_state := initial_state;
          wf_max_steps := DEFAULT_MAX_STEPS |}.

(** Modelled from the spec: [max_steps] is "configurable". *)
Definition with_max_steps (n : nat) (wf : Workflow) : Workflow :=
  {| wf_registry := wf_registry wf;
     wf_llm := wf_llm wf;
     wf_system_prompt := wf_system_prompt wf;
     wf_initial_state := wf_initial_state wf;
     wf_max_steps := n |}.

(** Modelled from the spec: the constructor [Context(workflow)] is absent
    from the scripts.  "a Session Context is created fresh": no message, no
    turn in flight, and the workflow's initial state, when it has one, under
    the key ["state"]. *)
Definition new_context (wf : Workflow) : SessionContext :=
  {| messages := [];
     state := match wf_initial_state wf with
              | Some s => {[ "state" := s ]}
              | None => ∅
              end;
     metadata := {| iteration_count := 0; status := DONE |} |}.

(** ** The agent engine: Event Stream *)

(** Modelled from the spec: "Event kinds: TextDelta(fragment),
    ToolStarted(name, args), ToolFinished(name, status, resultSummary),
    TurnComplete(finalText), TurnFailed(error)". *)
Inductive Event : Type :=
  | TextDelta (fragment : string)
  | ToolStarted (name : string) (args : gmap string json)
  | ToolFinished (name : string) (st : invocation_status) (summary : json)
  | TurnComplete (final_text : string)
  | TurnFailed (error : exn).

(** ** The agent engine: Turn Executor *)

(** Modelled from the spec: the executor's working state for one turn: the state
    of the machine and its iteration counter, the context it mutates, the
    context as it was before the turn, the batch of calls to execute, the
    fragments of the answer, what was emitted and invoked so far, and the
    error of a failed turn. *)
Record Turn : Type := {
  t_status : turn_status;
  t_iterations : nat;
  t_ctx : SessionContext;
  t_snapshot : SessionContext;
  t_calls : list ToolCall;
  t_fragments : list string;
  t_events : list Event;
  t_invocations : list ToolInvocation;
  t_failure : option exn
}.

(** Modelled from the spec: a transition to state [s] with [n] iterations made;
    the context becomes [ctx], with the two recorded in its metadata. *)
Definition transition (s : turn_status) (n : nat) (ctx : SessionContext)
    (t : Turn) : Turn :=
  {| t_status := s; t_iterations := n;
     t_ctx := set_metadata {| iteration_count := n; status := s |} ctx;
     t_snapshot := t_snapshot t; t_calls := t_calls t;
     t_fragments := t_fragments t; t_events := t_events t;
     t_invocations := t_invocations t; t_failure := t_failure t |}.

(** Modelled from the spec: the batch of calls the executor holds. *)
Definition with_calls (calls : list ToolCall) (t : Turn) : Turn :=
  {| t_status := t_status t; t_iterations := t_iterations t;
     t_ctx := t_ctx t; t_snapshot := t_snapshot t; t_calls := calls;
     t_fragments := t_fragments t; t_events := t_events t;
     t_invocations := t_invocations t; t_failure := t_failure t |}.

(** Modelled from the spec: the fragments of the answer the executor
    holds. *)
Definition with_fragments (fragments : list string) (t : Turn) : Turn :=
  {| t_status := t_status t; t_iterations := t_iterations t;
     t_ctx := t_ctx t; t_snapshot := t_snapshot t; t_calls := t_calls t;
     t_fragments := fragments; t_events := t_events t;
     t_invocations := t_invocations t; t_failure := t_failure t |}.

(** Modelled from the spec: events are appended to the Event Stream, an
    "ordered, finite sequence of events per turn". *)
Definition emit (evs : list Event) (t : Turn) : Turn :=
  {| t_status := t_status t; t_iterations := t_iterations t;
     t_ctx := t_ctx t; t_snapshot := t_snapshot t; t_calls := t_calls t;
     t_fragments := t_fragments t; t_events := t_events t ++ evs;
     t_invocations := t_invocations t; t_failure := t_failure t |}.

(** Modelled from the spec: the error a failed turn carries. *)
Definition with_failure (e : exn) (t : Turn) : Turn :=
  {| t_status := t_status t; t_iterations := t_iterations t;
     t_ctx := t_ctx t; t_snapshot := t_snapshot t; t_calls := t_calls t;
     t_fragments := t_fragments t; t_events := t_events t;
     t_invocations := t_invocations t; t_failure := Some e |}.

(** Modelled from the spec: a turn ends in "FAILED carrying the causing
    error"; the error is announced on the Event Stream. *)
Definition fail_turn (e : exn) (t : Turn) : Turn :=
  emit [TurnFailed e]
    (with_failure e (transition FAILED (t_iterations t) (t_ctx t) t)).

(** Modelled from the spec: after an oracle fault "the turn ends
    FAILED(LLMTransportError) and the Session Context is unchanged from its
    pre-turn snapshot". *)
Definition abort_turn (e : exn) (t : Turn) : Turn :=
  {| t_status := FAILED; t_iterations := t_iterations t;
     t_ctx := t_snapshot t; t_snapshot := t_snapshot t; t_calls := [];
     t_fragments := t_fragments t; t_events := t_events t ++ [TurnFailed e];
     t_invocations := t_invocations t; t_failure := Some e |}.

(** Modelled from the spec: "Each re-entry into AWAITING_ORACLE increments
    the iteration counter; exceeding max_steps (configurable, default 10)
    transitions to FAILED with StepLimitExceeded."  The counter counts the
    entries of the turn, the first one included, so that "the Turn Executor
    never performs more than max_steps AWAITING_ORACLE entries per turn; the
    next attempt deterministically fails with StepLimitExceeded". *)
Definition enter_awaiting (max_steps : nat) (t : Turn) : Turn :=
  if decide (t_iterations t < max_steps) then
    transition AWAITING_ORACLE (S (t_iterations t)) (t_ctx t) t
  else fail_turn StepLimitExceeded t.

(** Modelled from the spec: the history entry of a finished invocation: a tool
    message with the result payload (or the error) as content and the call
    as directive. *)
Definition invocation_message (inv : ToolInvocation) : Message :=
  {| msg_role := Tool;
     msg_content := inv_result inv;
     msg_directive := Some {| call_name := inv_name inv;
                              call_arguments := inv_arguments inv |} |}.

(** Modelled from the spec: a handler reaches the context through [get] and
    [set]: of the context it returns, the state is kept; the history and the
    metadata stay the executor's. *)
Definition record_invocation (inv : ToolInvocation) (ctx' : SessionContext)
    (t : Turn) : Turn :=
  {| t_status := t_status t; t_iterations := t_iterations t;
     t_ctx := {| messages := messages (t_ctx t) ++ [invocation_message inv];
                 state := state ctx';
                 metadata := metadata (t_ctx t) |};
     t_snapshot := t_snapshot t; t_calls := t_calls t;
     t_fragments := t_fragments t;
     t_events := t_events t
       ++ [ToolStarted (inv_name inv) (inv_arguments inv);
           ToolFinished (inv_name inv) (inv_status inv) (inv_result inv)];
     t_invocations := t_invocations t ++ [inv];
     t_failure := t_failure t |}.

(** Modelled from the spec: "resolve via the Registry.  An unresolved name
    yields CapabilityNotFound, recorded as a failed ToolInvocation and
    appended to history as a tool-error Message (not fatal to the turn).  A
    resolved call is invoked; its outcome (success payload or handler-raised
    error) is captured as a ToolInvocation and appended to history." *)
Definition dispatch (registry : list CapabilityDescriptor) (t : Turn)
    (call : ToolCall) : Turn :=
  let name := call_name call in
  let args := call_arguments call in
  match resolve name registry with
  | None =>
      record_invocation
        {| inv_name := name; inv_arguments := args;
           inv_result := JStr "CapabilityNotFound"; inv_status := Error |}
        (t_ctx t) t
  | Some d =>
      match cap_handler d (t_ctx t) args with
      | (ctx', Ok payload) =>
          record_invocation
            {| inv_name := name; inv_arguments := args;
               inv_result := payload; inv_status := Success |} ctx' t
      | (ctx', Raised _) =>
          record_invocation
            {| inv_name := name; inv_arguments := args;
               inv_result := JStr "ToolExecutionError"; inv_status := Error |}
            ctx' t
      end
  end.

(** Modelled from the spec: the final text is the fragments of the answer,
    in order. *)
Definition final_text (t : Turn) : string := String.concat "" (t_fragments t).

(** Modelled from the spec: one transition of the Turn Executor (section
    4.2).  In AWAITING_ORACLE the oracle is sent "full message history,
    current state, and capability schemas"; a textual answer leads to
    STREAMING_FINAL, which emits the "fragments in order through the Event
    Stream, then DONE"; a tool-call request leads to EXECUTING_TOOLS, where
    the calls are dispatched "in request order" and "after all requested
    calls in that batch are resolved" the executor goes "back to
    AWAITING_ORACLE"; an oracle fault ends the turn in FAILED. *)
Definition turn_step (wf : Workflow) (t : Turn) : Turn :=
  match t_status t with
  | AWAITING_ORACLE =>
      match wf_llm wf (messages (t_ctx t)) (state (t_ctx t))
                      (schemas (wf_registry wf)) with
      | Answer fragments =>
          with_fragments fragments
            (transition STREAMING_FINAL (t_iterations t) (t_ctx t) t)
      | ToolCalls calls =>
          with_calls calls
            (transition EXECUTING_TOOLS (t_iterations t) (t_ctx t) t)
      | TransportFault => abort_turn LLMTransportError t
      end
  | EXECUTING_TOOLS =>
      enter_awaiting (wf_max_steps wf)
        (with_calls [] (foldl (dispatch (wf_registry wf)) t (t_calls t)))
  | STREAMING_FINAL =>
      emit (map TextDelta (t_fragments t) ++ [TurnComplete (final_text t)])
        (transition DONE (t_iterations t)
           (append_message {| msg_role := Assistant;
                              msg_content := JStr (final_text t);
                              msg_directive := None |} (t_ctx t)) t)
  | DONE | FAILED => t
  end.

(** Modelled from the spec: the history entry of a user message. *)
Definition user_message (user_msg : string) : Message :=
  {| msg_role := User; msg_content := JStr user_msg; msg_directive := None |}.

(** Modelled from the spec: the turn starts with the user's message appended to
    the history, the iteration counter at zero, and a first attempt to enter
    AWAITING_ORACLE. *)
Definition start_turn (wf : Workflow) (user_msg : string) (ctx : SessionContext)
    : Turn :=
  enter_awaiting (wf_max_steps wf)
    {| t_status := AWAITING_ORACLE; t_iterations := 0;
       t_ctx := append_message (user_message user_msg) ctx;
       t_snapshot := ctx; t_calls := []; t_fragments := [];
       t_events := []; t_invocations := []; t_failure := None |}.

(** Modelled from the spec: the states a turn goes through, from [t] to the
    first terminal one (or until [fuel] transitions were made). *)
Fixpoint turn_trace (fuel : nat) (wf : Workflow) (t : Turn) : list Turn :=
  t :: match fuel with
       | 0 => []
       | S fuel =>
           if is_terminal (t_status t) then []
           else turn_trace fuel wf (turn_step wf t)
       end.

(** Modelled from the spec: the executor makes transitions until the turn
    is "DONE" or "FAILED" (or [fuel] transitions were made). *)
Fixpoint run_machine (fuel : nat) (wf : Workflow) (t : Turn) : Turn :=
  match fuel with
  | 0 => t
  | S fuel =>
      if is_terminal (t_status t) then t
      else run_machine fuel wf (turn_step wf t)
  end.

(** Modelled from the spec: every entry into AWAITING_ORACLE is followed by at
    most two transitions before the next one. *)
Definition turn_fuel (wf : Workflow) : nat := 2 * wf_max_steps wf + 2.

(** Modelled from the spec: a turn runs from its start to a terminal
    state. *)
Definition run_to_end (wf : Workflow) (user_msg : string) (ctx : SessionContext)
    : Turn :=
  run_machine (turn_fuel wf) wf (start_turn wf user_msg ctx).

(** Modelled from the spec: the states of the turn on [user_msg], in order. *)
Definition turn_states (wf : Workflow) (user_msg : string) (ctx : SessionContext)
    : list Turn :=
  turn_trace (turn_fuel wf) wf (start_turn wf user_msg ctx).

(** Modelled from the spec: the turn is in AWAITING_ORACLE. *)
Definition is_awaiting (t : Turn) : bool :=
  match t_status t with
  | AWAITING_ORACLE => true
  | _ => false
  end.

(** Modelled from the spec: a bound on the transitions a turn still makes from
    [t]. *)
Definition transitions_left (max_steps : nat) (t : Turn) : nat :=
  match t_status t with
  | AWAITING_ORACLE => 2 * (max_steps - t_iterations t) + 2
  | EXECUTING_TOOLS => 2 * (max_steps - t_iterations t) + 1
  | STREAMING_FINAL => 1
  | DONE | FAILED => 0
  end.

(** Modelled from the spec: the oracle asks for tools in state [t]. *)
Definition requests_tools (wf : Workflow) (t : Turn) : Prop :=
  ∃ calls,
    wf_llm wf (messages (t_ctx t)) (state (t_ctx t)) (schemas (wf_registry wf))
    = ToolCalls calls.

(** Modelled from the spec: the number of times a turn was in AWAITING_ORACLE. *)
Definition oracle_entries (trace : list Turn) : nat :=
  length (List.filter is_awaiting trace).

(** Modelled from the spec: [workflow.run(user_msg=..., ctx=ctx)] is absent
    from the scripts.  "startTurn(sessionId, userMessage) -> (event stream,
    eventual final result or failure)": the context the turn leaves, and the
    final text or the error of the failed turn. *)
Definition run (wf : Workflow) (user_msg : string) (ctx : SessionContext)
    : SessionContext * result string :=
  let t := run_to_end wf user_msg ctx in
  (t_ctx t,
   match t_failure t with
   | Some e => Raised e
   | None => Ok (final_text t)
   end).

(** ** Python numbers

    [add] and [multiply] declare their arguments [float].  Python does not
    check an annotation, so a call passes whatever number it has: an [int],
    an integer of any size, or a [float], an IEEE 754 binary64 value.  A
    float is a signed zero, a signed infinity, NaN, or a sign, a mantissa and
    an exponent standing for (-1)^s * m * 2^e; its arithmetic is the
    standard's ([SFadd], [SFmul] at precision 53 and exponent bound 1024):
    the exact result rounded to the nearest float, ties to even, and
    infinity past the largest float. *)

Definition prec : Z := 53.
Definition emax : Z := 1024.

Inductive number : Type :=
  | PyInt (n : Z)
  | PyFloat (x : spec_float).

(** The float nearest to an integer (ties to even); infinite when the
    integer is past the largest float. *)
Definition nearest_float (n : Z) : spec_float :=
  binary_normalize prec emax n 0 false.

(** [float(n)]: "OverflowError: int too large to convert to float". *)
Definition float_of_int (n : Z) : result spec_float :=
  match nearest_float n with
  | S754_infinity _ => Raised OverflowError
  | x => Ok x
  end.

(** What a binary operator does with an operand when the other one is a
    float: an int is converted first. *)
Definition to_float (a : number) : result spec_float :=
  match a with
  | PyInt n => float_of_int n
  | PyFloat x => Ok x
  end.

(** [a + b] on numbers. *)
Definition number_add (a b : number) : result number :=
  match a, b with
  | PyInt m, PyInt n => Ok (PyInt (m + n))
  | _, _ =>
      let* x := to_float a in
      let* y := to_float b in
      Ok (PyFloat (SFadd prec emax x y))
  end.

(** [a * b] on numbers. *)
Definition number_mul (a b : number) : result number :=
  match a, b with
  | PyInt m, PyInt n => Ok (PyInt (m * n))
  | _, _ =>
      let* x := to_float a in
      let* y := to_float b in
      Ok (PyFloat (SFmul prec emax x y))
  end.




(** Modelled from the spec: the engine turns a Python function into a
    capability ("each supplies a name, a parameter schema, and a handler
    taking validated arguments and returning a result payload or an
    error").  [function_tool name f] is the capability of a function of two
    numbers [a] and [b]; arguments that are missing or are not numbers are
    a handler error, and so is an exception of the function.  The numbers of
    the JSON values of this embedding are ints: the handler passes them on
    as ints, and a float result, which has no JSON value here, is a handler
    error. *)
Definition function_tool (name : string)
    (f : number → number → result number) : CapabilityDescriptor :=
  {| cap_name := name;
     cap_parameters := ["a"; "b"];
     cap_handler := λ ctx args,
       match args !! "a", args !! "b" with
       | Some (JInt a), Some (JInt b) =>
           match f (PyInt a) (PyInt b) with
           | Ok (PyInt r) => (ctx, Ok (JInt r))
           | Ok (PyFloat _) => (ctx, Raised (ToolExecutionError name))
           | Raised e => (ctx, Raised e)
           end
       | _, _ => (ctx, Raised (ToolExecutionError name))
       end |}.

(** * The scripts *)

(** ** [1_basic_agent.py], [2_tools.py], [3_state.py]: the math tools *)

(** [def multiply(a: float, b: float) -> float: return a * b] *)
Definition multiply (a b : number) : result number := number_mul a b.

(** [def add(a: float, b: float) -> float: return a + b] *)
Definition add (a b : number) : result number := number_add a b.

Module BasicAgent.

Definition workflow (llm : Oracle) : option Workflow :=
  from_tools_or_functions
    [function_tool "multiply" multiply; function_tool "add" add]
    llm
    "You are an agent that can perform basic mathematical operations using tools."
    None.

(** [main]: one turn on a fresh context; the response is printed. *)
Definition main (llm : Oracle) : option (SessionContext * result string) :=
  wf ← workflow llm;
  Some (run wf "What is 20+(2*4)?" (new_context wf)).

End BasicAgent.

(** ** [3_state.py], [3a_tools_and_state.py]: persistence and chat loop

    Both scripts define [load_context], [save_context] and [chat_loop] with
    the same code.  They are embedded once, over any engine: [Context_new]
    is [Context(workflow)], [Context_to_dict ctx] is
    [ctx.to_dict(serializer=JsonSerializer())], [Context_from_dict d] is
    [Context.from_dict(workflow, d, serializer=JsonSerializer())] and
    [workflow_run user_msg ctx] is [await workflow.run(user_msg=user_msg,
    ctx=ctx)], which mutates [ctx] and returns the response or raises. *)

(** The operations [save_context] performs on [history.json]. *)
Inductive file_op : Type :=
  | Truncate
  | Write (chunk : token).

(** The content of [history.json]; [None] when the file does not exist.
    Opening with mode ["w"] creates the file or empties it; a write appends
    to what was written since. *)
Definition apply_op (fs : option (list token)) (op : file_op) : option (list token) :=
  match op with
  | Truncate => Some []
  | Write chunk => Some (default [] fs ++ [chunk])
  end.

(** [str.lower()], on the ASCII letters. *)
Definition lower_char (c : ascii) : ascii :=
  let n := nat_of_ascii c in
  if (65 <=? n) && (n <=? 90) then ascii_of_nat (n + 32) else c.

Fixpoint lower (s : string) : string :=
  match s with
  | EmptyString => EmptyString
  | String c s' => String (lower_char c) (lower s')
  end.

(** [user_msg.lower() in ["exit", "quit"]] *)
Definition is_exit (user_msg : string) : bool :=
  existsb (String.eqb (lower user_msg)) ["exit"; "quit"].

(** How a run of the chat loop ends: the [break] after an exit word, or an
    exception that leaves the loop. *)
Inductive outcome : Type :=
  | Exited
  | Crashed (e : exn).

Section Scripts.

Context {Ctx : Type}.
Variable Context_new : Ctx.
Variable Context_to_dict : Ctx → json.
Variable Context_from_dict : json → result Ctx.
Variable workflow_run : string → Ctx → Ctx * result string.

(** [load_context]: [os.path.exists(HISTORY_FILE)], then [json.load] and
    [Context.from_dict]; a fresh context otherwise. *)
Definition load_context (fs : option (list token)) : result Ctx :=
  match fs with
  | Some text =>
      let* ctx_dict := json_load text in
      Context_from_dict ctx_dict
  | None => Ok Context_new
  end.

(** [save_context]: the record is built first; [open(HISTORY_FILE, "w")]
    empties the file, and [json.dump(ctx_dict, f, indent=2)] writes the
    record chunk after chunk. *)
Definition save_ops (ctx : Ctx) : list file_op :=
  let ctx_dict := Context_to_dict ctx in
  Truncate :: map Write (json_dump 2 ctx_dict).

(** The file after a [save_context] that runs to its end. *)
Definition save_context (ctx : Ctx) (fs : option (list token))
    : option (list token) :=
  foldl apply_op fs (save_ops ctx).

(** The file left by a [save_context] that is interrupted after [n] of its
    operations. *)
Definition interrupted_save (n : nat) (ctx : Ctx) (fs : option (list token))
    : option (list token) :=
  foldl apply_op fs (take n (save_ops ctx)).

(** What the chat loop does, in order: [EvInput] is a line read by
    [input] (with the content of [history.json] at that moment), [EvRun] a
    call of [workflow.run], [EvAnswer] its return (the context it left
    and the response, which is printed), [EvSave] a completed
    [save_context].  The other [print]s of the loop are left out. *)
Inductive loop_event : Type :=
  | EvInput (user_msg : string) (fs : option (list token))
  | EvRun (user_msg : string)
  | EvAnswer (ctx : Ctx) (response : string)
  | EvSave (ctx : Ctx).

(** The [while True] loop of [chat_loop], over the lines typed by the
    user; at the end of the input [input] raises [EOFError]. *)
Fixpoint loop (inputs : list string) (ctx : Ctx) (fs : option (list token))
    : list loop_event * option (list token) * outcome :=
  match inputs with
  | [] => ([], fs, Crashed EOFError)
  | user_msg :: inputs =>
      if is_exit user_msg then
        ([EvInput user_msg fs; EvSave ctx], save_context ctx fs, Exited)
      else
        match workflow_run user_msg ctx with
        | (ctx, Ok response) =>
            let fs' := save_context ctx fs in
            let '(events, fs'', out) := loop inputs ctx fs' in
            (EvInput user_msg fs :: EvRun user_msg :: EvAnswer ctx response
               :: EvSave ctx :: events, fs'', out)
        | (_, Raised e) =>
            ([EvInput user_msg fs; EvRun user_msg], fs, Crashed e)
        end
  end.

(** [chat_loop] of [3a_tools_and_state.py] loads the context and enters
    the loop; [3_state.py] loads the context when the module is imported
    and enters the same loop. *)
Definition chat_loop (inputs : list string) (fs : option (list token))
    : list loop_event * option (list token) * outcome :=
  match load_context fs with
  | Ok ctx => loop inputs ctx fs
  | Raised e => ([], fs, Crashed e)
  end.

(** The context left by the most recent completed turn of a trace, [ctx]
    when there is none. *)
Fixpoint last_answer (events : list loop_event) (ctx : Ctx) : Ctx :=
  match events with
  | [] => ctx
  | EvAnswer ctx' _ :: events => last_answer events ctx'
  | _ :: events => last_answer events ctx
  end.

Definition is_answer (ev : loop_event) : bool :=
  match ev with
  | EvAnswer _ _ => true
  | _ => false
  end.

Definition is_run (ev : loop_event) : bool :=
  match ev with
  | EvRun _ => true
  | _ => false
  end.

End Scripts.

Arguments loop_event : clear implicits.
Arguments EvInput {Ctx} user_msg fs.
Arguments EvRun {Ctx} user_msg.
Arguments EvAnswer {Ctx} ctx response.
Arguments EvSave {Ctx} ctx.

Module State.

(** [3_state.py]: the Yahoo Finance tools come from a package outside the
    scripts; the math tools are added to them. *)
Definition workflow (finance_tools : list CapabilityDescriptor) (llm : Oracle)
    : option Workflow :=
  from_tools_or_functions
    (finance_tools ++ [function_tool "multiply" multiply; function_tool "add" add])
    llm
    "You are an agent that can perform math and answer finance questions."
    None.

End State.

Module ToolsAndState.

(** [set_name]: [ctx.get("state")], the item assignment
    [state["name"] = name] (on a dict), [ctx.set("state", state)], and the
    confirmation. *)
Definition set_name (ctx : SessionContext) (name : string)
    : result (SessionContext * string) :=
  let* st := ctx_get "state" ctx in
  match st with
  | JDict d =>
      let st := JDict (<["name" := JStr name]> d) in
      let ctx := ctx_set "state" st ctx in
      Ok (ctx, "Name set to " +:+ name)
  | _ => Raised TypeError
  end.

(** Modelled from the spec: the engine turns [set_name] into a capability;
    the context is supplied by the engine and [name] is the one argument
    of the call. *)
Definition set_name_tool : CapabilityDescriptor :=
  {| cap_name := "set_name";
     cap_parameters := ["name"];
     cap_handler := λ ctx args,
       match args !! "name" with
       | Some (JStr name) =>
           match set_name ctx name with
           | Ok (ctx', confirmation) => (ctx', Ok (JStr confirmation))
           | Raised e => (ctx, Raised e)
           end
       | _ => (ctx, Raised (ToolExecutionError "set_name"))
       end |}.

Definition workflow (llm : Oracle) : option Workflow :=
  from_tools_or_functions
    [set_name_tool]
    llm
    "You are a helpful assistant that can remember a user's name."
    (Some (JDict {[ "name" := JStr "unset" ]})).

End ToolsAndState.

(** ** Scripted oracles

    The language model is outside the scripts and the engine.  The two
    oracles below stand for it in the scenarios of the specification: they
    answer from what the engine sends them (history and state) only. *)



Definition stored_name (st : gmap string json) : string :=
  match st !! "state" with
  | Some (JDict d) =>
      match d !! "name" with
      | Some (JStr n) => n
      | _ => "unknown"
      end
  | _ => "unknown"
  end.

(** Scenario A: on "call me X" the oracle issues [set_name(name=X)]; after a
    tool result it confirms; on anything else it answers with the name
    found in the state it was sent. *)
Definition name_oracle : Oracle := λ history st _,
  match last history with
  | Some {| msg_role := User; msg_content := JStr text |} =>
      if String.prefix "call me " text then
        ToolCalls [{| call_name := "set_name";
                      call_arguments :=
                        {[ "name" := JStr (String.substring 8 (String.length text - 8) text) ]} |}]
      else Answer [stored_name st]
  | Some {| msg_role := Tool |} => Answer ["Nice to meet you, "; stored_name st]
  | _ => Answer []
  end.

(** An oracle that asks for a tool nobody registered, whatever it is told,
    until the user says "stop". *)
Definition restless_oracle : Oracle := λ history _ _,
  match last history with
  | Some {| msg_role := User; msg_content := JStr text |} =>
      if String.eqb text "stop" then Answer ["stopped"]
      else ToolCalls [{| call_name := "ping"; call_arguments := ∅ |}]
  | _ => ToolCalls [{| call_name := "ping"; call_arguments := ∅ |}]
  end.

Definition restless_workflow : Workflow :=
  {| wf_registry := [];
     wf_llm := restless_oracle;
     wf_system_prompt := "";
     wf_initial_state := None;
     wf_max_steps := 3 |}.


(** ** The chat loop: what a session did *)

Section Sessions.

Context {Ctx : Type}.
Variable workflow_run : string → Ctx → Ctx * result string.

(** The lines [workflow.run] was called with, in order. *)
Fixpoint run_messages (events : list (loop_event Ctx)) : list string :=
  match events with
  | [] => []
  | EvRun user_msg :: events => user_msg :: run_messages events
  | _ :: events => run_messages events
  end.

(** The turns on the lines [msgs], one after the other, each on the context
    the one before left; the first exception ends them. *)
Fixpoint run_turns (msgs : list string) (ctx : Ctx) : result Ctx :=
  match msgs with
  | [] => Ok ctx
  | user_msg :: msgs =>
      match workflow_run user_msg ctx with
      | (ctx, Ok _) => run_turns msgs ctx
      | (_, Raised e) => Raised e
      end
  end.

(** The event is a completed [save_context]. *)
Definition is_save (ev : loop_event Ctx) : bool :=
  match ev with
  | EvSave _ => true
  | _ => false
  end.

End Sessions.

(** ** [4_streaming.py]: the consumer of the event stream

    [main] iterates over [handler.stream_events()].  The events are the
    engine's; the loop looks at two classes of them. *)

Module Streaming.

(** An event of the stream, as the loop sees it: the [delta] of an
    [AgentStream]; the [tool_name] of a [ToolCallResult] with the texts
    [str(event.tool_kwargs)] and [str(event.tool_output)]; any other event
    ([AgentInput], [AgentOutput], ...). *)
Inductive stream_event : Type :=
  | AgentStream (delta : string)
  | ToolCallResult (tool_name tool_kwargs tool_output : string)
  | OtherEvent.

(** The variable [agent_response] and what was printed so far. *)
Record console : Type := {
  agent_response : string;
  stdout : string
}.

Definition line_break : string := String (ascii_of_nat 10) "".

(** [print(text)] *)
Definition print (text : string) (out : string) : string :=
  out +:+ text +:+ line_break.

(** [str(event.tool_output)[:200]]: the first 200 characters, or all of
    them when there are fewer (the characters of this embedding's strings,
    which are Python's for ASCII text). *)
Definition snippet (tool_output : string) : string :=
  String.substring 0 200 tool_output.

(** The body of the [async for]. *)
Definition on_event (con : console) (event : stream_event) : console :=
  match event with
  | AgentStream delta =>
      {| agent_response := agent_response con +:+ delta;
         stdout := stdout con +:+ delta |}
  | ToolCallResult tool_name tool_kwargs tool_output =>
      {| agent_response := agent_response con;
         stdout :=
           print ("Result snippet: " +:+ snippet tool_output +:+ "...")
             (print ("Query: " +:+ tool_kwargs)
                (print (line_break +:+ "[Tool Used: " +:+ tool_name +:+ "]")
                   (stdout con))) |}
  | OtherEvent => con
  end.

Definition stream_events (events : list stream_event) (con : console) : console :=
  foldl on_event con events.

(** [main]: the question is printed, the events are consumed, and the final
    response ([str(final_response)]) is printed after "Agent (final):". *)
Definition main (events : list stream_event) (final_response : string) : console :=
  let con :=
    stream_events events
      {| agent_response := "";
         stdout := print "Client: What's the weather like in San Francisco?" "" |} in
  {| agent_response := agent_response con;
     stdout := print (line_break +:+ line_break +:+ "Agent (final):" +:+ " "
                        +:+ final_response) (stdout con) |}.

(** The deltas of the [AgentStream] events, in order. *)
Definition deltas (events : list stream_event) : list string :=
  omap (λ event, match event with
                 | AgentStream delta => Some delta
                 | _ => None
                 end) events.

Definition is_tool_result (event : stream_event) : bool :=
  match event with
  | ToolCallResult _ _ _ => true
  | _ => false
  end.

End Streaming.

(** * Properties *)

(** ** Induction on JSON values *)

Lemma json_size_list (x : json) (l : list json) :
  x ∈ l → json_size x < json_size (JList l).
Proof.
  simpl. induction l as [|y l IH]; intros Hx.
  - by apply elem_of_nil in Hx.
  - apply elem_of_cons in Hx as [->|Hx]; simpl; [lia|].
    specialize (IH Hx). lia.
Qed.

Lemma json_size_dict (m : gmap string json) (k : string) (x : json) :
  m !! k = Some x → json_size x < json_size (JDict m).
Proof.
  intros Hk. simpl. rewrite map_fold_foldr.
  apply elem_of_map_to_list in Hk.
  induction (map_to_list m) as [|[k' y] l IH]; [by apply elem_of_nil in Hk|].
  apply elem_of_cons in Hk as [Hk|Hk]; simpl.
  - injection Hk as -> ->. lia.
  - specialize (IH Hk). lia.
Qed.

Lemma json_ind' (P : json → Prop) :
  P JNull →
  (∀ b, P (JBool b)) →
  (∀ n, P (JInt n)) →
  (∀ s, P (JStr s)) →
  (∀ l, Forall P l → P (JList l)) →
  (∀ m, map_Forall (λ _, P) m → P (JDict m)) →
  ∀ v, P v.
Proof.
  intros Hnull Hbool Hint Hstr Hlist Hdict v.
  remember (json_size v) as n eqn:Hn.
  revert v Hn. induction n as [n IH] using lt_wf_ind. intros v ->.
  destruct v as [| | | |l|m]; auto.
  - apply Hlist, Forall_forall. intros x Hx.
    eapply IH; [|reflexivity]. by apply json_size_list.
  - apply Hdict. intros k x Hk.
    eapply IH; [|reflexivity]. by eapply json_size_dict.
Qed.

(** ** [json.load] inverts [json.dump] *)

Lemma encode_dict (indent : option nat) (level : nat) (m : gmap string json) :
  encode indent level (JDict m) =
  container TLBrace TRBrace indent level
    (map (λ kv, TStr kv.1 :: TColon :: encode indent (S level) kv.2)
         (map_to_list m)).
Proof.
  simpl. f_equal. rewrite map_fold_foldr.
  induction (map_to_list m) as [|[k x] l IH]; simpl; [done|by rewrite IH].
Qed.

Lemma strip_app (l1 l2 : list token) : strip (l1 ++ l2) = strip l1 ++ strip l2.
Proof. apply List.filter_app. Qed.

Lemma strip_newline (indent : option nat) (level : nat) :
  strip (newline indent level) = [].
Proof. by destruct indent. Qed.

Lemma strip_cons (t : token) (l : list token) :
  is_newline t = false → strip (t :: l) = t :: strip l.
Proof. intros Ht. unfold strip. simpl. by rewrite Ht. Qed.

Lemma strip_container (opening closing : token) (indent : option nat)
    (level level' : nat) (items items' : list (list token)) :
  is_newline opening = false → is_newline closing = false →
  Forall2 (λ it it', strip it = it') items items' →
  strip (container opening closing indent level items) =
  container opening closing None level' items'.
Proof.
  intros Ho Hc Hitems. unfold container.
  destruct Hitems as [|it it' its its' Hit Hits].
  - by rewrite !strip_cons.
  - rewrite strip_cons, !strip_app, !strip_newline, strip_cons, Hit by done.
    simpl. do 3 f_equal.
    induction Hits as [|x x' xs xs' Hx _ IH]; simpl; [done|].
    by rewrite strip_cons, !strip_app, strip_newline, Hx, IH.
Qed.

Lemma strip_encode (indent : option nat) (v : json) :
  ∀ level level', strip (encode indent level v) = encode None level' v.
Proof.
  induction v as [|b|n|s|l IH|m IH] using json_ind'; intros level level';
    try done.
  - by destruct b.
  - cbn [encode]. apply (strip_container _ _ _ _ level'); [done..|].
    apply Forall2_fmap, Forall_Forall2_diag.
    eapply Forall_impl; [exact IH|]. simpl. auto.
  - rewrite !encode_dict. apply (strip_container _ _ _ _ level'); [done..|].
    apply Forall2_fmap, Forall_Forall2_diag.
    apply map_Forall_to_list in IH.
    eapply Forall_impl; [exact IH|]. intros [k x] Hx. simpl in *.
    by rewrite !strip_cons, (Hx _ (S level')).
Qed.

Lemma encode_head (level : nat) (v : json) :
  ∃ t r, encode None level v = t :: r ∧ t ≠ TRBracket ∧ t ≠ TRBrace.
Proof.
  destruct v as [|[]| | |l|m]; try (eexists _, _; split; [reflexivity|done]).
  - simpl. destruct (map _ l); eexists _, _; (split; [reflexivity|done]).
  - rewrite encode_dict.
    destruct (map _ (map_to_list m)); eexists _, _; (split; [reflexivity|done]).
Qed.

Lemma parse_value_bracket (fuel : nat) (r : list token) :
  (∀ r', r ≠ TRBracket :: r') →
  parse_value (S fuel) (TLBracket :: r) =
  match parse_items fuel r with
  | Some (l, r') => Some (JList l, r')
  | None => None
  end.
Proof. intros Hr. destruct r as [|[] r]; try done. by destruct (Hr r). Qed.

Lemma parse_value_brace (fuel : nat) (r : list token) :
  (∀ r', r ≠ TRBrace :: r') →
  parse_value (S fuel) (TLBrace :: r) =
  match parse_members fuel r with
  | Some (kvs, r') => Some (JDict (dict_of_pairs kvs), r')
  | None => None
  end.
Proof. intros Hr. destruct r as [|[] r]; try done. by destruct (Hr r). Qed.

Lemma parse_items_encode (level : nat) (xs : list json) :
  Forall (λ v, ∀ fuel level rest,
            length (encode None level v) ≤ fuel →
            parse_value fuel (encode None level v ++ rest) = Some (v, rest)) xs →
  ∀ x fuel rest,
    (∀ fuel level rest,
        length (encode None level x) ≤ fuel →
        parse_value fuel (encode None level x ++ rest) = Some (x, rest)) →
    S (length (encode None level x
               ++ flat_map (λ item, TComma :: item) (map (encode None level) xs)))
      ≤ fuel →
    parse_items fuel
      (encode None level x
         ++ flat_map (λ item, TComma :: item) (map (encode None level) xs)
         ++ TRBracket :: rest) = Some (x :: xs, rest).
Proof.
  induction 1 as [|y ys Hy _ IH]; intros x fuel rest Hx Hfuel;
    (destruct fuel as [|fuel]; [lia|]); simpl in *.
  - rewrite Hx by (rewrite length_app in Hfuel; simpl in Hfuel; lia). done.
  - rewrite length_app in Hfuel. simpl in Hfuel.
    rewrite Hx by lia.
    destruct (encode_head level x) as (t & r & Hex & _).
    rewrite Hex in Hfuel. simpl in Hfuel.
    rewrite <- app_assoc. rewrite IH; [done|exact Hy|lia].
Qed.

Lemma parse_members_encode (level : nat) (kvs : list (string * json)) :
  Forall (λ kv, ∀ fuel level rest,
            length (encode None level kv.2) ≤ fuel →
            parse_value fuel (encode None level kv.2 ++ rest) = Some (kv.2, rest))
         kvs →
  ∀ k x fuel rest,
    (∀ fuel level rest,
        length (encode None level x) ≤ fuel →
        parse_value fuel (encode None level x ++ rest) = Some (x, rest)) →
    S (length ((TStr k :: TColon :: encode None level x)
               ++ flat_map (λ item, TComma :: item)
                    (map (λ kv, TStr kv.1 :: TColon :: encode None level kv.2) kvs)))
      ≤ fuel →
    parse_members fuel
      ((TStr k :: TColon :: encode None level x)
         ++ flat_map (λ item, TComma :: item)
              (map (λ kv, TStr kv.1 :: TColon :: encode None level kv.2) kvs)
         ++ TRBrace :: rest) = Some ((k, x) :: kvs, rest).
Proof.
  induction 1 as [|[k' y] ys Hy _ IH]; intros k x fuel rest Hx Hfuel;
    (destruct fuel as [|fuel]; [lia|]); simpl in *.
  - rewrite Hx by (rewrite length_app in Hfuel; simpl in Hfuel; lia). done.
  - rewrite length_app in Hfuel. simpl in Hfuel.
    rewrite Hx by lia. simpl.
    specialize (IH k' y fuel rest Hy). simpl in IH.
    rewrite <- app_assoc. rewrite IH; [done|]. lia.
Qed.

Lemma dict_of_pairs_to_list (m : gmap string json) :
  dict_of_pairs (map_to_list m) = m.
Proof.
  rewrite <- (list_to_map_to_list m) at 2.
  rewrite (list_to_map_proper (map_to_list m) (reverse (map_to_list m)));
    [|apply NoDup_fst_map_to_list|by rewrite reverse_Permutation].
  unfold dict_of_pairs. rewrite <- (reverse_involutive (map_to_list m)) at 1.
  generalize (reverse (map_to_list m)). intros l.
  induction l as [|[k x] l IH]; [done|].
  rewrite reverse_cons, foldl_app. simpl. by rewrite IH.
Qed.

Lemma parse_encode (v : json) :
  ∀ fuel level rest,
    length (encode None level v) ≤ fuel →
    parse_value fuel (encode None level v ++ rest) = Some (v, rest).
Proof.
  induction v as [|b|n|s|l IH|m IH] using json_ind'; intros fuel level rest Hfuel;
    try (destruct fuel; [simpl in Hfuel; lia|done]).
  - destruct b; (destruct fuel; [simpl in Hfuel; lia|done]).
  - simpl in *. destruct l as [|x xs].
    + simpl in *. destruct fuel as [|[|fuel]]; [lia..|done].
    + simpl in *. destruct fuel as [|fuel]; [lia|].
      apply Forall_cons in IH as [Hx Hxs].
      rewrite parse_value_bracket.
      * rewrite <- !app_assoc. simpl.
        rewrite (parse_items_encode (S level) xs Hxs x fuel rest Hx); [done|].
        rewrite !length_app in *. simpl in *. lia.
      * intros r'. destruct (encode_head (S level) x) as (t & r & -> & Ht & _).
        simpl. congruence.
  - rewrite encode_dict in *. apply map_Forall_to_list in IH.
    rewrite <- (dict_of_pairs_to_list m) at 2.
    destruct (map_to_list m) as [|[k x] kvs].
    + simpl in *. destruct fuel as [|[|fuel]]; [lia..|done].
    + simpl in *. destruct fuel as [|fuel]; [lia|].
      apply Forall_cons in IH as [Hx Hxs]. simpl in Hx.
      assert (Hxs' : Forall (λ kv : string * json, ∀ fuel level rest,
                 length (encode None level kv.2) ≤ fuel →
                 parse_value fuel (encode None level kv.2 ++ rest)
                 = Some (kv.2, rest)) kvs)
        by (eapply Forall_impl; [exact Hxs|]; by intros []).
      clear Hxs. rename Hxs' into Hxs.
      pose proof (parse_members_encode (S level) kvs Hxs k x fuel rest Hx) as H.
      simpl in H. rewrite <- !app_assoc. simpl. rewrite H; [done|].
      rewrite !length_app in *. simpl in *. lia.
Qed.

Lemma json_load_dump (indent : nat) (v : json) :
  json_load (json_dump indent v) = Ok v.
Proof.
  unfold json_load, json_dump. rewrite (strip_encode _ _ 0 0).
  rewrite <- (app_nil_r (encode None 0 v)) at 2.
  rewrite parse_encode; [done|lia].
Qed.

(** ** Snapshots: [from_dict] inverts [to_dict] *)

Lemma role_of_name_name (r : role) : role_of_name (role_name r) = Some r.
Proof. by destruct r. Qed.

Lemma status_of_name_name (s : turn_status) : status_of_name (status_name s) = Some s.
Proof. by destruct s. Qed.

Lemma call_of_json_to_json (c : ToolCall) : call_of_json (call_to_json c) = Some c.
Proof.
  destruct c. unfold call_of_json, call_to_json. simpl.
  rewrite lookup_insert_eq, lookup_insert_ne, lookup_singleton_eq; done.
Qed.

Lemma message_of_json_to_json (m : Message) :
  message_of_json (message_to_json m) = Some m.
Proof.
  destruct m as [r c [call|]]; unfold message_of_json, message_to_json; simpl.
  - rewrite lookup_insert_eq. rewrite !(lookup_insert_ne _ "role") by done.
    rewrite lookup_insert_eq. rewrite !(lookup_insert_ne _ "content") by done.
    rewrite lookup_singleton_eq.
    by rewrite role_of_name_name, call_of_json_to_json.
  - simplify_map_eq. by rewrite role_of_name_name.
Qed.

Lemma metadata_of_json_to_json (md : Metadata) :
  metadata_of_json (metadata_to_json md) = Some md.
Proof.
  destruct md as [n s]. unfold metadata_of_json, metadata_to_json. simpl.
  rewrite lookup_insert_eq, lookup_insert_ne, lookup_singleton_eq by done.
  rewrite status_of_name_name.
  destruct (Z.leb_spec 0 (Z.of_nat n)); [|lia]. by rewrite Nat2Z.id.
Qed.

Lemma mapM_message_of_json (ms : list Message) :
  mapM message_of_json (map message_to_json ms) = Some ms.
Proof.
  apply mapM_Some. induction ms as [|m ms IH]; simpl; constructor; [|done].
  apply message_of_json_to_json.
Qed.

Lemma from_dict_to_dict (ctx : SessionContext) : from_dict (to_dict ctx) = Ok ctx.
Proof.
  destruct ctx as [ms st md]. unfold from_dict, to_dict. simpl.
  rewrite lookup_insert_eq. simpl.
  rewrite !(lookup_insert_ne _ "version") by done.
  rewrite lookup_insert_eq.
  rewrite !(lookup_insert_ne _ "messages") by done.
  rewrite lookup_insert_eq.
  rewrite !(lookup_insert_ne _ "state") by done.
  rewrite lookup_singleton_eq.
  by rewrite mapM_message_of_json, metadata_of_json_to_json.
Qed.

(** ** Files: what a save leaves *)

Lemma write_chunks (chunks written : list token) :
  foldl apply_op (Some written) (map Write chunks) = Some (written ++ chunks).
Proof.
  revert written. induction chunks as [|c chunks IH]; intros written; simpl.
  - by rewrite app_nil_r.
  - rewrite IH. by rewrite <- app_assoc.
Qed.

Lemma save_context_complete {Ctx : Type} (Context_to_dict : Ctx → json)
    (ctx : Ctx) (fs : option (list token)) :
  save_context Context_to_dict ctx fs = Some (json_dump 2 (Context_to_dict ctx)).
Proof. unfold save_context, save_ops. simpl. apply write_chunks. Qed.

Lemma interrupted_save_prefix {Ctx : Type} (Context_to_dict : Ctx → json)
    (n : nat) (ctx : Ctx) (fs : option (list token)) :
  interrupted_save Context_to_dict (S n) ctx fs =
  Some (take n (json_dump 2 (Context_to_dict ctx))).
Proof.
  unfold interrupted_save, save_ops. simpl.
  rewrite <- fmap_take. apply write_chunks.
Qed.

Lemma load_context_saved {Ctx : Type} (Context_new : Ctx)
    (Context_to_dict : Ctx → json) (Context_from_dict : json → result Ctx)
    (ctx : Ctx) (fs : option (list token)) :
  load_context Context_new Context_from_dict (save_context Context_to_dict ctx fs) =
  Context_from_dict (Context_to_dict ctx).
Proof.
  rewrite save_context_complete. unfold load_context.
  by rewrite json_load_dump.
Qed.

(** ** C1: snapshot, restore, snapshot *)

(** C1.  For every Session Context [ctx] and whatever [history.json] held
    before: after [save_context ctx], [load_context] returns a context
    [ctx'] with the messages and the state of [ctx] (it is [ctx]); its
    record [to_dict ctx'] is the record [to_dict ctx] that was saved, and
    saving [ctx'] again leaves the file as the first save left it. *)
Theorem snapshot_restore_roundtrip (wf : Workflow) (ctx : SessionContext)
    (fs : option (list token)) :
  ∃ ctx',
    load_context (new_context wf) from_dict (save_context to_dict ctx fs) = Ok ctx'
    ∧ messages ctx' = messages ctx
    ∧ state ctx' = state ctx
    ∧ ctx' = ctx
    ∧ to_dict ctx' = to_dict ctx
    ∧ save_context to_dict ctx' (save_context to_dict ctx fs)
      = save_context to_dict ctx fs.
Proof.
  exists ctx. rewrite load_context_saved, from_dict_to_dict.
  by rewrite !save_context_complete.
Qed.

(** ** The Turn Executor: termination and the step limit *)

Lemma dispatch_control (registry : list CapabilityDescriptor) (t : Turn)
    (call : ToolCall) :
  t_status (dispatch registry t call) = t_status t
  ∧ t_iterations (dispatch registry t call) = t_iterations t
  ∧ t_failure (dispatch registry t call) = t_failure t.
Proof.
  unfold dispatch. destruct (resolve _ _); [|done].
  by destruct (cap_handler _ _ _) as [ctx' [payload|e]].
Qed.

Lemma foldl_dispatch_control (registry : list CapabilityDescriptor)
    (calls : list ToolCall) (t : Turn) :
  t_status (foldl (dispatch registry) t calls) = t_status t
  ∧ t_iterations (foldl (dispatch registry) t calls) = t_iterations t
  ∧ t_failure (foldl (dispatch registry) t calls) = t_failure t.
Proof.
  revert t. induction calls as [|call calls IH]; intros t; simpl; [done|].
  destruct (IH (dispatch registry t call)) as (-> & -> & ->).
  apply dispatch_control.
Qed.

Lemma enter_awaiting_below (max_steps : nat) (t : Turn) :
  t_iterations t < max_steps →
  enter_awaiting max_steps t
  = transition AWAITING_ORACLE (S (t_iterations t)) (t_ctx t) t.
Proof. intros H. unfold enter_awaiting. by rewrite decide_True. Qed.

Lemma enter_awaiting_limit (max_steps : nat) (t : Turn) :
  ¬ t_iterations t < max_steps →
  enter_awaiting max_steps t = fail_turn StepLimitExceeded t.
Proof. intros H. unfold enter_awaiting. by rewrite decide_False. Qed.

Lemma step_awaiting (wf : Workflow) (t : Turn) :
  t_status t = AWAITING_ORACLE →
  t_failure t = None →
  let t' := turn_step wf t in
  t_iterations t' = t_iterations t
  ∧ ((t_status t' = STREAMING_FINAL ∧ t_failure t' = None ∧ ¬ requests_tools wf t)
     ∨ (t_status t' = EXECUTING_TOOLS ∧ t_failure t' = None)
     ∨ (t_status t' = FAILED ∧ t_failure t' = Some LLMTransportError
        ∧ ¬ requests_tools wf t)).
Proof.
  intros Hst Hfail. unfold turn_step, requests_tools. rewrite Hst.
  destruct (wf_llm wf _ _ _); simpl; (split; [done|]).
  - left. repeat split; [done|]. by intros [calls ?].
  - right. left. done.
  - right. right. repeat split. by intros [calls ?].
Qed.

Lemma step_executing (wf : Workflow) (t : Turn) :
  t_status t = EXECUTING_TOOLS →
  let t' := turn_step wf t in
  (t_iterations t < wf_max_steps wf ∧ t_status t' = AWAITING_ORACLE
   ∧ t_iterations t' = S (t_iterations t) ∧ t_failure t' = t_failure t)
  ∨ (¬ t_iterations t < wf_max_steps wf ∧ t_status t' = FAILED
     ∧ t_iterations t' = t_iterations t
     ∧ t_failure t' = Some StepLimitExceeded).
Proof.
  intros Hst. unfold turn_step. rewrite Hst.
  destruct (foldl_dispatch_control (wf_registry wf) (t_calls t) t)
    as (Hs & Hi & Hf).
  set (t1 := with_calls [] (foldl (dispatch (wf_registry wf)) t (t_calls t))).
  assert (Hi1 : t_iterations t1 = t_iterations t) by done.
  assert (Hf1 : t_failure t1 = t_failure t) by done.
  destruct (decide (t_iterations t1 < wf_max_steps wf)) as [Hlt|Hge].
  - left. rewrite enter_awaiting_below by done. simpl.
    rewrite <- Hi1. done.
  - right. rewrite enter_awaiting_limit by done. simpl.
    rewrite <- Hi1. done.
Qed.

Lemma step_streaming (wf : Workflow) (t : Turn) :
  t_status t = STREAMING_FINAL →
  let t' := turn_step wf t in
  t_status t' = DONE ∧ t_iterations t' = t_iterations t
  ∧ t_failure t' = t_failure t.
Proof. intros Hst. unfold turn_step. by rewrite Hst. Qed.

Lemma oracle_entries_cons (t : Turn) (trace : list Turn) :
  oracle_entries (t :: trace)
  = (if is_awaiting t then 1 else 0) + oracle_entries trace.
Proof. unfold oracle_entries. simpl. by destruct (is_awaiting t). Qed.

(** A turn runs to a terminal state; its AWAITING_ORACLE states are counted
    by the iteration counter, which stays within [max_steps]; a step-limit
    failure happens with the counter at [max_steps], and it happens when
    the oracle asks for tools every time. *)
Lemma machine_run (wf : Workflow) (fuel : nat) :
  ∀ t,
    transitions_left (wf_max_steps wf) t ≤ fuel →
    t_iterations t ≤ wf_max_steps wf →
    (is_terminal (t_status t) = false → t_failure t = None) →
    (t_failure t = Some StepLimitExceeded → t_iterations t = wf_max_steps wf) →
    let final := run_machine fuel wf t in
    let trace := turn_trace fuel wf t in
    last trace = Some final
    ∧ is_terminal (t_status final) = true
    ∧ t_iterations final ≤ wf_max_steps wf
    ∧ oracle_entries trace + t_iterations t
      = t_iterations final + (if is_awaiting t then 1 else 0)
    ∧ (t_failure final = Some StepLimitExceeded →
       t_iterations final = wf_max_steps wf)
    ∧ (Forall (λ t', is_awaiting t' = true → requests_tools wf t') trace →
       t_status t ≠ STREAMING_FINAL → t_status t ≠ DONE →
       (t_status t = FAILED → t_failure t = Some StepLimitExceeded) →
       t_status final = FAILED ∧ t_failure final = Some StepLimitExceeded).
Proof.
  assert (Hstop : ∀ t,
    is_terminal (t_status t) = true →
    t_iterations t ≤ wf_max_steps wf →
    (t_failure t = Some StepLimitExceeded → t_iterations t = wf_max_steps wf) →
    last [t] = Some t
    ∧ is_terminal (t_status t) = true
    ∧ t_iterations t ≤ wf_max_steps wf
    ∧ oracle_entries [t] + t_iterations t
      = t_iterations t + (if is_awaiting t then 1 else 0)
    ∧ (t_failure t = Some StepLimitExceeded →
       t_iterations t = wf_max_steps wf)
    ∧ (Forall (λ t', is_awaiting t' = true → requests_tools wf t') [t] →
       t_status t ≠ STREAMING_FINAL → t_status t ≠ DONE →
       (t_status t = FAILED → t_failure t = Some StepLimitExceeded) →
       t_status t = FAILED ∧ t_failure t = Some StepLimitExceeded)).
  { intros t Hterm Hiter Hlimit. rewrite oracle_entries_cons.
    split_and!; [done|done|done| |done|].
    - unfold oracle_entries. simpl. lia.
    - intros _ _ Hd Hf. destruct (t_status t); try done. auto. }
  induction fuel as [|fuel IH]; intros t Hleft Hiter Hnone Hlimit.
  - (* no transition left: [t] is terminal *)
    assert (Hterm : is_terminal (t_status t) = true).
    { unfold transitions_left in Hleft.
      destruct (t_status t); simpl; [lia..|done|done]. }
    simpl. by apply Hstop.
  - simpl. destruct (is_terminal (t_status t)) eqn:Hterm.
    + by apply Hstop.
    + specialize (Hnone eq_refl).
      rewrite oracle_entries_cons.
      assert (Hlast : last (t :: turn_trace fuel wf (turn_step wf t))
                      = last (turn_trace fuel wf (turn_step wf t)))
        by (by destruct fuel).
      rewrite Hlast. clear Hlast.
      destruct (t_status t) eqn:Hst; try done.
      * (* AWAITING_ORACLE *)
        destruct (step_awaiting wf t Hst Hnone) as (Hi & Hcases).
        assert (Hleft' : transitions_left (wf_max_steps wf) (turn_step wf t) ≤ fuel).
        { unfold transitions_left in *. rewrite Hst in Hleft.
          destruct Hcases as [(-> & _)|[(-> & _)|(-> & _)]]; rewrite ?Hi; lia. }
        destruct (IH (turn_step wf t) Hleft') as (H1 & H2 & H3 & H4 & H5 & H6).
        { lia. }
        { destruct Hcases as [(_ & -> & _)|[(_ & ->)|(Hs & _)]]; try done.
          by rewrite Hs. }
        { destruct Hcases as [(_ & -> & _)|[(_ & ->)|(_ & -> & _)]]; done. }
        assert (Ha : is_awaiting t = true)
          by (unfold is_awaiting; by rewrite Hst).
        assert (Hna : is_awaiting (turn_step wf t) = false).
        { unfold is_awaiting.
          destruct Hcases as [(-> & _)|[(-> & _)|(-> & _)]]; done. }
        rewrite Hna in H4. rewrite Ha.
        split_and!; [done|done|done|lia|done|].
        intros Hall _ _ _. apply Forall_cons in Hall as [Ht Hall].
        specialize (Ht Ha).
        destruct Hcases as [(_ & _ & Hn)|[(Hs & Hf)|(_ & _ & Hn)]]; try done.
        apply H6; [done|by rewrite Hs..].
      * (* EXECUTING_TOOLS *)
        pose proof (step_executing wf t Hst) as Hcases. simpl in Hcases.
        assert (Hleft' : transitions_left (wf_max_steps wf) (turn_step wf t) ≤ fuel).
        { unfold transitions_left in *. rewrite Hst in Hleft.
          destruct Hcases as [(? & -> & -> & _)|(? & -> & _)]; lia. }
        destruct (IH (turn_step wf t) Hleft') as (H1 & H2 & H3 & H4 & H5 & H6).
        { destruct Hcases as [(? & _ & -> & _)|(? & _ & -> & _)]; lia. }
        { destruct Hcases as [(_ & _ & _ & ->)|(_ & -> & _)]; done. }
        { destruct Hcases as [(_ & _ & _ & ->)|(? & _ & -> & _)]; [congruence|lia]. }
        assert (Ha : is_awaiting t = false)
          by (unfold is_awaiting; by rewrite Hst).
        rewrite Ha.
        split_and!; [done|done|done| |done|].
        -- destruct Hcases as [(? & Hs & Hi & _)|(? & Hs & Hi & _)];
             unfold is_awaiting in H4; rewrite Hs, Hi in H4; lia.
        -- intros Hall _ _ _. apply Forall_cons in Hall as [_ Hall].
           apply H6; [done|..];
             destruct Hcases as [(_ & Hs & _)|(_ & Hs & _ & Hf)];
             rewrite Hs; done.
      * (* STREAMING_FINAL *)
        destruct (step_streaming wf t Hst) as (Hs & Hi & Hf).
        assert (Hleft' : transitions_left (wf_max_steps wf) (turn_step wf t) ≤ fuel).
        { unfold transitions_left. rewrite Hs. lia. }
        destruct (IH (turn_step wf t) Hleft') as (H1 & H2 & H3 & H4 & H5 & H6).
        { lia. }
        { by rewrite Hs. }
        { rewrite Hf, Hnone. done. }
        assert (Ha : is_awaiting t = false)
          by (unfold is_awaiting; by rewrite Hst).
        rewrite Ha. unfold is_awaiting in H4. rewrite Hs in H4.
        split_and!; [done|done|done|lia|done|done].
Qed.

Lemma run_machine_terminal (wf : Workflow) (fuel : nat) (t : Turn) :
  is_terminal (t_status t) = true → run_machine fuel wf t = t.
Proof. intros H. destruct fuel; simpl; [done|by rewrite H]. Qed.

Lemma run_machine_step (wf : Workflow) (fuel : nat) (t : Turn) :
  is_terminal (t_status t) = false →
  run_machine (S fuel) wf t = run_machine fuel wf (turn_step wf t).
Proof. intros H. simpl. by rewrite H. Qed.

Lemma step_answer (wf : Workflow) (t : Turn) (fragments : list string) :
  t_status t = AWAITING_ORACLE →
  wf_llm wf (messages (t_ctx t)) (state (t_ctx t)) (schemas (wf_registry wf))
  = Answer fragments →
  turn_step wf t
  = with_fragments fragments
      (transition STREAMING_FINAL (t_iterations t) (t_ctx t) t).
Proof. intros Hs Ho. unfold turn_step. by rewrite Hs, Ho. Qed.

(** A turn whose oracle answers at once is DONE with that answer. *)
Lemma run_answer (wf : Workflow) (user_msg : string) (ctx : SessionContext)
    (fragments : list string) :
  0 < wf_max_steps wf →
  wf_llm wf (messages ctx ++ [user_message user_msg]) (state ctx)
    (schemas (wf_registry wf)) = Answer fragments →
  t_status (run_to_end wf user_msg ctx) = DONE
  ∧ t_invocations (run_to_end wf user_msg ctx) = []
  ∧ (run wf user_msg ctx).2 = Ok (String.concat "" fragments).
Proof.
  intros Hmax Horacle. unfold run, run_to_end, turn_fuel, start_turn.
  rewrite enter_awaiting_below by done.
  match goal with
  | |- context [transition AWAITING_ORACLE ?n ?c ?t] =>
      set (t1 := transition AWAITING_ORACLE n c t)
  end.
  replace (2 * wf_max_steps wf + 2) with (S (S (2 * wf_max_steps wf))) by lia.
  rewrite run_machine_step by done.
  rewrite (step_answer wf t1 fragments eq_refl Horacle).
  rewrite run_machine_step by done.
  rewrite run_machine_terminal by done.
  done.
Qed.

Lemma start_turn_ready (wf : Workflow) (user_msg : string) (ctx : SessionContext) :
  let t := start_turn wf user_msg ctx in
  transitions_left (wf_max_steps wf) t ≤ turn_fuel wf
  ∧ t_iterations t ≤ wf_max_steps wf
  ∧ (is_terminal (t_status t) = false → t_failure t = None)
  ∧ (t_failure t = Some StepLimitExceeded → t_iterations t = wf_max_steps wf)
  ∧ t_iterations t = (if is_awaiting t then 1 else 0)
  ∧ t_status t ≠ STREAMING_FINAL ∧ t_status t ≠ DONE
  ∧ (t_status t = FAILED → t_failure t = Some StepLimitExceeded).
Proof.
  unfold start_turn, turn_fuel.
  destruct (decide (0 < wf_max_steps wf)) as [Hmax|Hmax].
  - rewrite enter_awaiting_below by done.
    unfold transitions_left, is_awaiting. simpl. split_and!; try done; lia.
  - rewrite enter_awaiting_limit by done.
    unfold transitions_left, is_awaiting. simpl. split_and!; try done; lia.
Qed.

(** ** C8: the step limit *)

(** C8.  A turn runs to a terminal state, DONE or FAILED, and is in
    AWAITING_ORACLE at most [max_steps] times; [max_steps] is configurable
    and 10 by default.  The turn fails with StepLimitExceeded only after
    [max_steps] entries, and it does whenever the oracle asks for tools at
    each of them: the attempt to enter once more ends the turn in FAILED.
    The context the failed turn leaves accepts the next turn: if the oracle
    answers the next message, that turn is DONE with the answer. *)
Theorem step_limit (wf : Workflow) (user_msg : string) (ctx : SessionContext) :
  let states := turn_states wf user_msg ctx in
  let final := run_to_end wf user_msg ctx in
  last states = Some final
  ∧ is_terminal (t_status final) = true
  ∧ oracle_entries states = t_iterations final
  ∧ oracle_entries states ≤ wf_max_steps wf
  ∧ (∀ n, wf_max_steps (with_max_steps n wf) = n)
  ∧ (∀ tools llm prompt initial wf',
       from_tools_or_functions tools llm prompt initial = Some wf' →
       wf_max_steps wf' = 10)
  ∧ (∀ t, t_iterations t = wf_max_steps wf →
       enter_awaiting (wf_max_steps wf) t = fail_turn StepLimitExceeded t)
  ∧ (t_failure final = Some StepLimitExceeded →
       oracle_entries states = wf_max_steps wf)
  ∧ (Forall (λ t, is_awaiting t = true → requests_tools wf t) states →
       oracle_entries states = wf_max_steps wf
       ∧ t_status final = FAILED
       ∧ t_failure final = Some StepLimitExceeded
       ∧ (run wf user_msg ctx).2 = Raised StepLimitExceeded)
  ∧ (∀ next_msg fragments,
       0 < wf_max_steps wf →
       wf_llm wf (messages (t_ctx final) ++ [user_message next_msg])
         (state (t_ctx final)) (schemas (wf_registry wf)) = Answer fragments →
       t_status (run_to_end wf next_msg (t_ctx final)) = DONE
       ∧ (run wf next_msg (t_ctx final)).2 = Ok (String.concat "" fragments)).
Proof.
  intros states final. subst states final. unfold turn_states, run_to_end.
  destruct (start_turn_ready wf user_msg ctx)
    as (Hleft & Hiter & Hnone & Hlimit & Hcount & Hs1 & Hs2 & Hs3).
  destruct (machine_run wf (turn_fuel wf) (start_turn wf user_msg ctx)
              Hleft Hiter Hnone Hlimit) as (H1 & H2 & H3 & H4 & H5 & H6).
  rewrite Hcount in H4.
  assert (Hentries :
    oracle_entries (turn_trace (turn_fuel wf) wf (start_turn wf user_msg ctx))
    = t_iterations (run_machine (turn_fuel wf) wf (start_turn wf user_msg ctx)))
    by lia.
  split_and!; [done|done|done|lia|done| | | | |].
  - intros tools llm prompt initial wf' Hwf.
    unfold from_tools_or_functions in Hwf.
    destruct (foldl _ _ tools); simplify_eq/=. done.
  - intros t Ht. apply enter_awaiting_limit. lia.
  - intros Hf. rewrite Hentries. auto.
  - intros Hall. destruct (H6 Hall Hs1 Hs2 Hs3) as [Hst Hf].
    split_and!; [|done|done|].
    + rewrite Hentries. auto.
    + unfold run, run_to_end. simpl. by rewrite Hf.
  - intros next_msg fragments Hmax Horacle.
    destruct (run_answer wf next_msg _ fragments Hmax Horacle) as (? & _ & ?).
    done.
Qed.

Lemma step_limit_witness :
  t_failure (run_to_end restless_workflow "go" (new_context restless_workflow))
  = Some StepLimitExceeded
  ∧ oracle_entries
      (turn_states restless_workflow "go" (new_context restless_workflow)) = 3
  ∧ (run restless_workflow "stop"
       (t_ctx (run_to_end restless_workflow "go" (new_context restless_workflow)))).2
    = Ok "stopped"
  ∧ (∃ wf, BasicAgent.workflow restless_oracle = Some wf ∧ wf_max_steps wf = 10).
Proof.
  destruct (step_limit restless_workflow "go" (new_context restless_workflow))
    as (_ & _ & _ & _ & _ & Hdefault & _ & Hbound & Hloop & Hnext).
  assert (Hall : Forall (λ t, is_awaiting t = true
                              → requests_tools restless_workflow t)
                   (turn_states restless_workflow "go"
                      (new_context restless_workflow))).
  { match goal with
    | |- Forall _ ?l => let l' := eval vm_compute in l in change l with l'
    end.
    repeat (apply Forall_cons; split;
            [intros Ha;
             first [by (vm_compute in Ha; discriminate Ha)
                   |eexists; vm_compute; reflexivity]|]).
    constructor. }
  destruct (Hloop Hall) as (_ & _ & Hfailed & _).
  destruct (Hnext "stop" ["stopped"]) as [_ Hanswer];
    [vm_compute; lia|reflexivity|].
  split; [assumption|]. split; [rewrite (Hbound Hfailed); reflexivity|].
  split; [assumption|].
  assert (Hwf : ∃ wf, BasicAgent.workflow restless_oracle = Some wf)
    by (eexists; reflexivity).
  destruct Hwf as [wf Hwf]. exists wf. split; [exact Hwf|].
  exact (Hdefault _ _ _ _ _ Hwf).
Defined.

(** ** C7: the arithmetic tools *)









(** ** C9: what [set_name] changes *)

(** C9.  On a context whose state (the value under the key "state") is a
    mapping, [set_name] returns "Name set to " followed by the name; in the
    state it leaves, "name" is the given name and every other key has the
    value it had; the other keys of the context, its messages and its
    metadata are unchanged. *)
Theorem set_name_frame (ctx : SessionContext) (name : string)
    (st : gmap string json) :
  ctx_get "state" ctx = Ok (JDict st) →
  ∃ ctx' st',
    ToolsAndState.set_name ctx name = Ok (ctx', "Name set to " +:+ name)
    ∧ ctx_get "state" ctx' = Ok (JDict st')
    ∧ st' !! "name" = Some (JStr name)
    ∧ (∀ key, key ≠ "name" → st' !! key = st !! key)
    ∧ (∀ key, key ≠ "state" → state ctx' !! key = state ctx !! key)
    ∧ messages ctx' = messages ctx
    ∧ metadata ctx' = metadata ctx.
Proof.
  intros Hst. unfold ToolsAndState.set_name. rewrite Hst. simpl.
  eexists _, _. split_and!; [reflexivity| | | | |done|done].
  - unfold ctx_get, ctx_set. simpl. by rewrite lookup_insert_eq.
  - apply lookup_insert_eq.
  - intros key Hkey. by rewrite lookup_insert_ne.
  - intros key Hkey. simpl. by rewrite lookup_insert_ne.
Qed.

Lemma set_name_frame_witness :
  ∃ ctx' st',
    ToolsAndState.set_name
      (ctx_set "state" (JDict {[ "name" := JStr "unset"; "age" := JInt 30 ]})
         (new_context restless_workflow)) "Ayan"
    = Ok (ctx', "Name set to Ayan")
    ∧ ctx_get "state" ctx' = Ok (JDict st')
    ∧ st' !! "name" = Some (JStr "Ayan")
    ∧ st' !! "age" = Some (JInt 30).
Proof.
  destruct (set_name_frame
              (ctx_set "state" (JDict {[ "name" := JStr "unset"; "age" := JInt 30 ]})
                 (new_context restless_workflow))
              "Ayan" {[ "name" := JStr "unset"; "age" := JInt 30 ]})
    as (ctx' & st' & Hret & Hget & Hname & Hother & _); [reflexivity|].
  exists ctx', st'. split_and!; [exact Hret|exact Hget|exact Hname|].
  rewrite Hother by done. reflexivity.
Defined.

(** ** C2: the name survives a restart *)

(** C2.  A fresh context of [3a_tools_and_state.py] has the state
    {"name": "unset"}; [set_name] with "Ayan" leaves the state
    {"name": "Ayan"}, and so does the turn "call me Ayan" in which the
    oracle issues [set_name(name="Ayan")].  After [save_context] and
    [load_context] the state is still {"name": "Ayan"}, and a later turn
    "what is my name", with an oracle that answers from the state it is
    sent, is DONE with "Ayan" without any tool invocation. *)
Theorem name_survives_restart :
  ∃ wf,
    ToolsAndState.workflow name_oracle = Some wf
    ∧ let ctx0 := new_context wf in
      ctx_get "state" ctx0 = Ok (JDict {[ "name" := JStr "unset" ]})
      ∧ (∃ ctx1,
           ToolsAndState.set_name ctx0 "Ayan" = Ok (ctx1, "Name set to Ayan")
           ∧ ctx_get "state" ctx1 = Ok (JDict {[ "name" := JStr "Ayan" ]}))
      ∧ let turn1 := run_to_end wf "call me Ayan" ctx0 in
        map inv_name (t_invocations turn1) = ["set_name"]
        ∧ t_status turn1 = DONE
        ∧ ctx_get "state" (t_ctx turn1) = Ok (JDict {[ "name" := JStr "Ayan" ]})
        ∧ ∀ fs, ∃ ctx2,
            load_context (new_context wf) from_dict
              (save_context to_dict (t_ctx turn1) fs) = Ok ctx2
            ∧ ctx_get "state" ctx2 = Ok (JDict {[ "name" := JStr "Ayan" ]})
            ∧ let turn2 := run_to_end wf "what is my name" ctx2 in
              t_status turn2 = DONE
              ∧ t_invocations turn2 = []
              ∧ (run wf "what is my name" ctx2).2 = Ok "Ayan".
Proof.
  eexists. split; [reflexivity|]. cbv zeta.
  split; [by vm_compute|].
  split; [eexists; split; by vm_compute|].
  split; [by vm_compute|].
  split; [by vm_compute|].
  split; [by vm_compute|].
  intros fs. eexists. rewrite load_context_saved, from_dict_to_dict.
  split; [reflexivity|].
  split; [by vm_compute|].
  split; [by vm_compute|].
  split; by vm_compute.
Qed.

(** ** C3: the versioned record *)

(** C3.  The record [to_dict] builds is a mapping with exactly the keys
    version, messages, state and metadata: the version number, a list, a
    mapping and a mapping.  Restoring a record whose version is not that
    number (or is missing) fails with UnsupportedVersion, and so does
    [load_context] on a file that holds such a record, whatever else the
    record contains. *)
Theorem versioned_record (wf : Workflow) (ctx : SessionContext)
    (record : gmap string json) (indent : nat) :
  (∃ ms st md,
     to_dict ctx = JDict {[ "version" := JInt SNAPSHOT_VERSION;
                            "messages" := JList ms;
                            "state" := JDict st;
                            "metadata" := JDict md ]}
     ∧ length ms = length (messages ctx) ∧ st = state ctx)
  ∧ (record !! "version" ≠ Some (JInt SNAPSHOT_VERSION) →
     from_dict (JDict record) = Raised UnsupportedVersion
     ∧ load_context (new_context wf) from_dict
         (Some (json_dump indent (JDict record)))
       = Raised UnsupportedVersion).
Proof.
  split.
  - eexists _, _, _. unfold to_dict, metadata_to_json.
    split; [reflexivity|]. by rewrite length_map.
  - intros Hversion.
    assert (Hfrom : from_dict (JDict record) = Raised UnsupportedVersion).
    { unfold from_dict. destruct (record !! "version") as [[| |v| | |]|]; try done.
      destruct (Z.eqb_spec v SNAPSHOT_VERSION) as [->|]; done. }
    split; [done|]. unfold load_context. by rewrite json_load_dump.
Qed.

Lemma versioned_record_witness :
  from_dict (JDict {[ "version" := JInt 2; "messages" := JList [];
                      "state" := JDict ∅;
                      "metadata" := metadata_to_json
                                      {| iteration_count := 0; status := DONE |} ]})
  = Raised UnsupportedVersion.
Proof.
  apply (versioned_record restless_workflow (new_context restless_workflow)
           {[ "version" := JInt 2; "messages" := JList [];
              "state" := JDict ∅;
              "metadata" := metadata_to_json
                              {| iteration_count := 0; status := DONE |} ]} 2).
  vm_compute. intros [=].
Defined.

(** ** C4: a save is not atomic *)

(** C4, as stated, fails: a [save_context] interrupted after its first four
    operations (the file opened, three chunks written) leaves a file that
    is neither the prior record nor the new one; it holds the beginning of
    the new record, and [load_context] cannot read it. *)
Lemma interrupted_save_counterexample :
  let old_ctx := new_context restless_workflow in
  let new_ctx := ctx_set "state" (JDict {[ "name" := JStr "Ayan" ]}) old_ctx in
  let prior := save_context to_dict old_ctx None in
  let left := interrupted_save to_dict 4 new_ctx prior in
  left = Some [TLBrace; TNewline 2; TStr "state"]
  ∧ left ≠ prior
  ∧ left ≠ save_context to_dict new_ctx prior
  ∧ load_context old_ctx from_dict left = Raised JSONDecodeError.
Proof. cbv zeta. split_and!; by vm_compute. Qed.

(** C4, amended.  A [save_context] that runs to completion leaves the
    complete new record, whatever [history.json] held.  Interrupted before
    its first operation it leaves the file as it was; interrupted after
    [n + 1] operations it leaves the first [n] chunks of the new record and
    nothing of the prior one. *)
Theorem save_context_steps {Ctx : Type} (Context_to_dict : Ctx → json)
    (ctx : Ctx) (fs : option (list token)) (n : nat) :
  save_context Context_to_dict ctx fs = Some (json_dump 2 (Context_to_dict ctx))
  ∧ interrupted_save Context_to_dict 0 ctx fs = fs
  ∧ interrupted_save Context_to_dict (S n) ctx fs
    = Some (take n (json_dump 2 (Context_to_dict ctx)))
  ∧ interrupted_save Context_to_dict (length (save_ops Context_to_dict ctx)) ctx fs
    = save_context Context_to_dict ctx fs.
Proof.
  split_and!.
  - apply save_context_complete.
  - done.
  - apply interrupted_save_prefix.
  - unfold interrupted_save, save_context. by rewrite firstn_all.
Qed.

(** ** C6: what [load_context] returns *)

(** C6, as stated, fails: [history.json] exists and is empty (what an
    interrupted save can leave); [load_context] returns no context, restored
    or fresh: it raises JSONDecodeError. *)
Lemma load_context_counterexample :
  load_context (new_context restless_workflow) from_dict (Some [])
  = Raised JSONDecodeError
  ∧ ¬ ∃ ctx,
      load_context (new_context restless_workflow) from_dict (Some []) = Ok ctx.
Proof. split; [done|]. by intros [ctx [=]]. Qed.

(** C6, amended.  [load_context] has three outcomes.  Without
    [history.json] it returns a new context.  With the file, it returns the
    context that [Context.from_dict] restores from the decoded file; if the
    file is not JSON, or is JSON that [Context.from_dict] rejects, it raises
    that error instead of returning a context. *)
Theorem load_context_outcomes {Ctx : Type} (Context_new : Ctx)
    (Context_from_dict : json → result Ctx) (fs : option (list token)) :
  (fs = None ∧ load_context Context_new Context_from_dict fs = Ok Context_new)
  ∨ (∃ text ctx_dict ctx,
       fs = Some text ∧ json_load text = Ok ctx_dict
       ∧ Context_from_dict ctx_dict = Ok ctx
       ∧ load_context Context_new Context_from_dict fs = Ok ctx)
  ∨ (∃ text e,
       fs = Some text
       ∧ load_context Context_new Context_from_dict fs = Raised e
       ∧ (json_load text = Raised e
          ∨ ∃ ctx_dict, json_load text = Ok ctx_dict
                        ∧ Context_from_dict ctx_dict = Raised e)).
Proof.
  destruct fs as [text|]; [|by left].
  right. unfold load_context.
  destruct (json_load text) as [ctx_dict|e] eqn:Hload; simpl.
  - destruct (Context_from_dict ctx_dict) as [ctx|e] eqn:Hfrom.
    + left. by exists text, ctx_dict, ctx.
    + right. exists text, e. split_and!; [done..|]. right. by exists ctx_dict.
  - right. exists text, e. split_and!; [done..|]. by left.
Qed.

(** ** The chat loop *)

Section ChatLoop.

Context {Ctx : Type}.
Variable Context_to_dict : Ctx → json.
Variable workflow_run : string → Ctx → Ctx * result string.

Local Abbreviation loop := (loop Context_to_dict workflow_run).
Local Abbreviation saved ctx := (Some (json_dump 2 (Context_to_dict ctx))).

Lemma loop_exit (user_msg : string) (inputs : list string) (ctx : Ctx)
    (fs : option (list token)) :
  is_exit user_msg = true →
  loop (user_msg :: inputs) ctx fs
  = ([EvInput user_msg fs; EvSave ctx], saved ctx, Exited).
Proof. intros H. simpl. rewrite H. by rewrite save_context_complete. Qed.

Lemma loop_turn (user_msg : string) (inputs : list string) (ctx ctx' : Ctx)
    (response : string) (fs : option (list token)) :
  is_exit user_msg = false →
  workflow_run user_msg ctx = (ctx', Ok response) →
  loop (user_msg :: inputs) ctx fs
  = (EvInput user_msg fs :: EvRun user_msg :: EvAnswer ctx' response
       :: EvSave ctx' :: (loop inputs ctx' (saved ctx')).1.1,
     (loop inputs ctx' (saved ctx')).1.2,
     (loop inputs ctx' (saved ctx')).2).
Proof.
  intros H Hrun. simpl. rewrite H, Hrun, save_context_complete.
  by destruct (loop inputs ctx' _) as [[events fs'] out].
Qed.

Lemma loop_raise (user_msg : string) (inputs : list string) (ctx ctx' : Ctx)
    (e : exn) (fs : option (list token)) :
  is_exit user_msg = false →
  workflow_run user_msg ctx = (ctx', Raised e) →
  loop (user_msg :: inputs) ctx fs
  = ([EvInput user_msg fs; EvRun user_msg], fs, Crashed e).
Proof. intros H Hrun. simpl. by rewrite H, Hrun. Qed.

(** The loop starts by reading a line, with the file as it is. *)
Lemma loop_head (inputs : list string) (ctx : Ctx) (fs : option (list token)) :
  (loop inputs ctx fs).1.1 = []
  ∨ ∃ user_msg events, (loop inputs ctx fs).1.1 = EvInput user_msg fs :: events.
Proof.
  destruct inputs as [|user_msg inputs]; [by left|]. right.
  destruct (is_exit user_msg) eqn:Hexit.
  - rewrite loop_exit by done. by eexists _, _.
  - destruct (workflow_run user_msg ctx) as [ctx' [response|e]] eqn:Hrun.
    + erewrite loop_turn by done. by eexists _, _.
    + erewrite loop_raise by done. by eexists _, _.
Qed.

(** After a completed turn the context is saved at once, and the next
    line is read with that record in the file. *)
Lemma loop_answer_saved (inputs : list string) :
  ∀ ctx fs before c response after,
    (loop inputs ctx fs).1.1 = before ++ EvAnswer c response :: after →
    ∃ rest,
      after = EvSave c :: rest
      ∧ (rest = [] ∨ ∃ user_msg rest', rest = EvInput user_msg (saved c) :: rest').
Proof.
  induction inputs as [|user_msg inputs IH];
    intros ctx fs before c response after Hev.
  - by destruct before.
  - destruct (is_exit user_msg) eqn:Hexit.
    { rewrite loop_exit in Hev by done. simpl in Hev.
      destruct before as [|? [|? [|? ?]]]; simplify_eq/=. }
    destruct (workflow_run user_msg ctx) as [ctx' [r|e]] eqn:Hrun.
    + erewrite loop_turn in Hev by done. simpl in Hev.
      destruct before as [|e1 [|e2 [|e3 [|e4 before]]]]; simplify_eq/=.
      * eexists. split; [done|]. apply loop_head.
      * eapply IH. eassumption.
    + erewrite loop_raise in Hev by done. simpl in Hev.
      destruct before as [|? [|? [|? ?]]]; simplify_eq/=.
Qed.

(** When the user ends the session, the last thing the loop does is save
    the context of the most recent completed turn. *)
Lemma loop_final_save (inputs : list string) :
  ∀ ctx fs,
    (loop inputs ctx fs).2 = Exited →
    ∃ before user_msg fs_read,
      (loop inputs ctx fs).1.1
      = before ++ [EvInput user_msg fs_read;
                   EvSave (last_answer (loop inputs ctx fs).1.1 ctx)]
      ∧ is_exit user_msg = true
      ∧ existsb is_run
          [EvInput user_msg fs_read;
           EvSave (last_answer (loop inputs ctx fs).1.1 ctx)] = false
      ∧ (loop inputs ctx fs).1.2
        = saved (last_answer (loop inputs ctx fs).1.1 ctx).
Proof.
  induction inputs as [|user_msg inputs IH]; intros ctx fs Hout; [done|].
  destruct (is_exit user_msg) eqn:Hexit.
  { rewrite loop_exit by done. by exists [], user_msg, fs. }
  destruct (workflow_run user_msg ctx) as [ctx' [r|e]] eqn:Hrun.
  - erewrite loop_turn in Hout |- * by done. simpl in Hout |- *.
    destruct (IH ctx' _ Hout) as (before & m & fs_read & Hev & Hm & Hrunless & Hfs).
    exists (EvInput user_msg fs :: EvRun user_msg :: EvAnswer ctx' r
              :: EvSave ctx' :: before), m, fs_read.
    split_and!; [|done|done|done]. simpl. by rewrite <- Hev.
  - erewrite loop_raise in Hout by done. done.
Qed.

(** Once a turn has completed, the file holds the record of the most
    recent completed turn, however the loop ends. *)
Lemma loop_synced (inputs : list string) :
  ∀ ctx fs,
    fs = saved ctx ∨ existsb is_answer (loop inputs ctx fs).1.1 = true →
    (loop inputs ctx fs).1.2 = saved (last_answer (loop inputs ctx fs).1.1 ctx).
Proof.
  induction inputs as [|user_msg inputs IH]; intros ctx fs Hsync.
  - simpl in *. by destruct Hsync.
  - destruct (is_exit user_msg) eqn:Hexit.
    { by rewrite loop_exit by done. }
    destruct (workflow_run user_msg ctx) as [ctx' [r|e]] eqn:Hrun.
    + erewrite loop_turn by done. simpl. apply IH. by left.
    + erewrite loop_raise in Hsync |- * by done. simpl in *.
      by destruct Hsync.
Qed.

(** A loop that ends with an exception saved nothing at its end: either the
    input ended, before any line or right after the save of a turn that
    returned, or [workflow.run] raised on the last line read, and the file
    is as it was when that line was read. *)
Lemma loop_crashed (inputs : list string) :
  ∀ ctx fs e,
    (loop inputs ctx fs).2 = Crashed e →
    ((e = EOFError
      ∧ ((loop inputs ctx fs).1.1 = []
         ∨ ∃ before c, (loop inputs ctx fs).1.1 = before ++ [EvSave c]))
     ∨ ∃ before user_msg,
         (loop inputs ctx fs).1.1
         = before ++ [EvInput user_msg (loop inputs ctx fs).1.2; EvRun user_msg]
         ∧ is_exit user_msg = false
         ∧ (workflow_run user_msg (last_answer before ctx)).2 = Raised e)
    ∧ (existsb is_answer (loop inputs ctx fs).1.1 = false
       → (loop inputs ctx fs).1.2 = fs).
Proof.
  induction inputs as [|user_msg inputs IH]; intros ctx fs e Hout.
  - simpl in *. split; [|done]. left. split; [congruence|by left].
  - destruct (is_exit user_msg) eqn:Hexit.
    { by rewrite loop_exit in Hout by done. }
    destruct (workflow_run user_msg ctx) as [ctx' [r|e']] eqn:Hrun.
    + erewrite loop_turn in Hout |- * by done. simpl in Hout |- *.
      split; [|done].
      destruct (IH ctx' _ e Hout)
        as [[[He [Hnil|(before & c & Hev)]]|(before & m & Hev & Hm & Hraise)] _].
      * left. split; [done|]. right.
        exists [EvInput user_msg fs; EvRun user_msg; EvAnswer ctx' r], ctx'.
        by rewrite Hnil.
      * left. split; [done|]. right.
        exists (EvInput user_msg fs :: EvRun user_msg :: EvAnswer ctx' r
                  :: EvSave ctx' :: before), c.
        simpl. by rewrite <- Hev.
      * right.
        exists (EvInput user_msg fs :: EvRun user_msg :: EvAnswer ctx' r
                  :: EvSave ctx' :: before), m.
        split_and!; [|done|done]. simpl. by rewrite <- Hev.
    + erewrite loop_raise in Hout |- * by done. simpl in Hout |- *.
      split; [|done]. right. exists [], user_msg.
      split_and!; [done|done|]. simpl. rewrite Hrun. simpl. congruence.
Qed.

End ChatLoop.

Lemma chat_loop_loaded {Ctx : Type} (Context_new : Ctx)
    (Context_to_dict : Ctx → json) (Context_from_dict : json → result Ctx)
    (workflow_run : string → Ctx → Ctx * result string)
    (inputs : list string) (fs : option (list token)) (ctx : Ctx) :
  load_context Context_new Context_from_dict fs = Ok ctx →
  chat_loop Context_new Context_to_dict Context_from_dict workflow_run inputs fs
  = loop Context_to_dict workflow_run inputs ctx fs.
Proof. intros H. unfold chat_loop. by rewrite H. Qed.

(** ** C5: a save after every turn *)

(** C5 as stated fails for a turn that ends in FAILED.  The oracle keeps
    asking for tools on "go", the turn reaches the step limit and
    [workflow.run] raises: the loop has no handler, so it ends there, with no
    save after the turn and no final save, and "exit" is never read.  With
    no [history.json] at the start there is none at the end; after an
    earlier turn that returned, the file still holds that turn's record. *)
Lemma failed_turn_counterexample :
  let ctx := new_context restless_workflow in
  let c1 := (run restless_workflow "stop" ctx).1 in
  t_status (run_to_end restless_workflow "go" ctx) = FAILED
  ∧ (run restless_workflow "go" ctx).2 = Raised StepLimitExceeded
  ∧ loop to_dict (run restless_workflow) ["go"; "exit"] ctx None
    = ([EvInput "go" None; EvRun "go"], None, Crashed StepLimitExceeded)
  ∧ t_status (run_to_end restless_workflow "go" c1) = FAILED
  ∧ loop to_dict (run restless_workflow) ["stop"; "go"; "exit"] ctx None
    = ([EvInput "stop" None; EvRun "stop"; EvAnswer c1 "stopped"; EvSave c1;
        EvInput "go" (Some (json_dump 2 (to_dict c1))); EvRun "go"],
       Some (json_dump 2 (to_dict c1)), Crashed StepLimitExceeded).
Proof. cbv zeta. split_and!; by vm_compute. Qed.

(** C5, amended.  In a run of the chat loop from any context and file: when
    a turn returns, the next thing the loop does is save the context the
    turn left, and the next line, if one is read, is read with that record
    in [history.json]; when the user ends the session, the loop ends with a
    line read and a save of the current context, without a turn; once a
    turn has returned, the file holds the record of the most recent turn
    that returned when the loop ends, however it ends.  A loop that ends
    with an exception saves nothing at its end: either the input ended,
    before any line or right after the save of a turn that returned, or
    [workflow.run] raised on the last line read, which is not an exit word,
    and the file is as it was when that line was read; if no turn returned,
    the file is as it was at the start. *)
Theorem save_after_each_turn {Ctx : Type} (Context_to_dict : Ctx → json)
    (workflow_run : string → Ctx → Ctx * result string)
    (inputs : list string) (ctx : Ctx) (fs : option (list token)) :
  let r := loop Context_to_dict workflow_run inputs ctx fs in
  let events := r.1.1 in
  let fs' := r.1.2 in
  (∀ before c response after,
     events = before ++ EvAnswer c response :: after →
     ∃ rest,
       after = EvSave c :: rest
       ∧ (rest = []
          ∨ ∃ user_msg rest',
              rest = EvInput user_msg (Some (json_dump 2 (Context_to_dict c)))
                       :: rest'))
  ∧ (r.2 = Exited →
     ∃ before user_msg fs_read,
       events = before ++ [EvInput user_msg fs_read;
                           EvSave (last_answer events ctx)]
       ∧ is_exit user_msg = true
       ∧ fs' = Some (json_dump 2 (Context_to_dict (last_answer events ctx))))
  ∧ (existsb is_answer events = true →
     fs' = Some (json_dump 2 (Context_to_dict (last_answer events ctx))))
  ∧ (∀ e, r.2 = Crashed e →
       ((e = EOFError
         ∧ (events = [] ∨ ∃ before c, events = before ++ [EvSave c]))
        ∨ ∃ before user_msg,
            events = before ++ [EvInput user_msg fs'; EvRun user_msg]
            ∧ is_exit user_msg = false
            ∧ (workflow_run user_msg (last_answer before ctx)).2 = Raised e)
       ∧ (existsb is_answer events = false → fs' = fs)).
Proof.
  cbv zeta. split_and!.
  - apply loop_answer_saved.
  - intros Hout.
    destruct (loop_final_save Context_to_dict workflow_run inputs ctx fs Hout)
      as (before & m & fs_read & Hev & Hm & _ & Hfs).
    by exists before, m, fs_read.
  - intros Hans. apply loop_synced. by right.
  - intros e Hout. by apply loop_crashed.
Qed.

Lemma save_after_each_turn_witness :
  let ctx := new_context restless_workflow in
  let r := loop to_dict (run restless_workflow) ["stop"; "Quit"] ctx None in
  let crashed :=
    loop to_dict (run restless_workflow) ["stop"; "go"; "exit"] ctx None in
  (∃ c response rest,
     r.1.1 = [EvInput "stop" None; EvRun "stop"]
             ++ EvAnswer c response :: EvSave c :: rest)
  ∧ (∃ before user_msg fs_read,
       r.1.1 = before ++ [EvInput user_msg fs_read;
                          EvSave (last_answer r.1.1 ctx)]
       ∧ is_exit user_msg = true)
  ∧ r.1.2 = Some (json_dump 2 (to_dict (last_answer r.1.1 ctx)))
  ∧ (∃ before user_msg,
       crashed.1.1
       = before ++ [EvInput user_msg crashed.1.2; EvRun user_msg]
       ∧ is_exit user_msg = false
       ∧ (run restless_workflow user_msg (last_answer before ctx)).2
         = Raised StepLimitExceeded).
Proof.
  cbv zeta.
  destruct (save_after_each_turn to_dict (run restless_workflow)
              ["stop"; "Quit"] (new_context restless_workflow) None)
    as (Hturn & Hexit & Hsync & _).
  destruct (save_after_each_turn to_dict (run restless_workflow)
              ["stop"; "go"; "exit"] (new_context restless_workflow) None)
    as (_ & _ & _ & Hcrash).
  split_and!.
  - match eval vm_compute in
        (loop to_dict (run restless_workflow) ["stop"; "Quit"]
           (new_context restless_workflow) None).1.1 with
    | ?e1 :: ?e2 :: EvAnswer ?c ?response :: ?after =>
        destruct (Hturn [e1; e2] c response after) as (rest & Hafter & _);
          [by vm_compute|];
        exists c, response, rest; rewrite <- Hafter; by vm_compute
    end.
  - destruct Hexit as (before & user_msg & fs_read & Hevents & Hmsg & _);
      [by vm_compute|].
    exists before, user_msg, fs_read. split; assumption.
  - apply Hsync. vm_compute. reflexivity.
  - destruct (Hcrash StepLimitExceeded) as [[[Heof _]|Hraised] _];
      [by vm_compute|discriminate Heof|exact Hraised].
Defined.

(** ** C10: the exit words *)

Lemma is_exit_spec (user_msg : string) :
  is_exit user_msg = true ↔ lower user_msg = "exit" ∨ lower user_msg = "quit".
Proof.
  unfold is_exit. simpl. rewrite !orb_true_iff, !String.eqb_eq.
  split; [intros [?|[?|?]]; auto; discriminate|intros [?|?]; auto].
Qed.

(** C10.  [is_exit] holds exactly of the lines whose lowercased form is
    "exit" or "quit".  On such a line the loop saves the context and stops:
    it reads the line, saves, and runs no turn.  On any other line it runs a
    turn: it calls [workflow.run] with that line and the current context;
    when the call returns, the loop prints the response, saves the context
    the turn left and goes on with that context and the lines that follow;
    when it raises, the loop ends with that exception and the file as it
    was.  "EXIT" and "Quit" end the session; " exit", with a leading space,
    does not. *)
Theorem exit_words {Ctx : Type} (Context_to_dict : Ctx → json)
    (workflow_run : string → Ctx → Ctx * result string)
    (user_msg : string) (inputs : list string) (ctx : Ctx)
    (fs : option (list token)) :
  (is_exit user_msg = true ↔ lower user_msg = "exit" ∨ lower user_msg = "quit")
  ∧ (lower user_msg = "exit" ∨ lower user_msg = "quit" →
     loop Context_to_dict workflow_run (user_msg :: inputs) ctx fs
     = ([EvInput user_msg fs; EvSave ctx],
        Some (json_dump 2 (Context_to_dict ctx)), Exited)
     ∧ existsb is_run [EvInput user_msg fs; EvSave ctx] = false)
  ∧ (lower user_msg ≠ "exit" → lower user_msg ≠ "quit" →
     match workflow_run user_msg ctx with
     | (ctx', Ok response) =>
         let next :=
           loop Context_to_dict workflow_run inputs ctx'
             (Some (json_dump 2 (Context_to_dict ctx'))) in
         loop Context_to_dict workflow_run (user_msg :: inputs) ctx fs
         = (EvInput user_msg fs :: EvRun user_msg :: EvAnswer ctx' response
              :: EvSave ctx' :: next.1.1,
            next.1.2, next.2)
     | (_, Raised e) =>
         loop Context_to_dict workflow_run (user_msg :: inputs) ctx fs
         = ([EvInput user_msg fs; EvRun user_msg], fs, Crashed e)
     end)
  ∧ is_exit "EXIT" = true
  ∧ is_exit "Quit" = true
  ∧ is_exit " exit" = false.
Proof.
  split_and!; [apply is_exit_spec| | |done..].
  - intros Hword. apply is_exit_spec in Hword.
    split; [|done]. by apply loop_exit.
  - intros Hexit Hquit.
    assert (Hno : is_exit user_msg = false).
    { destruct (is_exit user_msg) eqn:H; [|done].
      apply is_exit_spec in H. by destruct H. }
    destruct (workflow_run user_msg ctx) as [ctx' [response|e]] eqn:Hrun.
    + cbv zeta. by apply loop_turn.
    + by eapply loop_raise.
Qed.

Lemma exit_words_witness :
  let ctx := new_context restless_workflow in
  let c1 := (run restless_workflow "stop" ctx).1 in
  loop to_dict (run restless_workflow) ["EXIT"; "stop"] ctx None
  = ([EvInput "EXIT" None; EvSave ctx], Some (json_dump 2 (to_dict ctx)), Exited)
  ∧ loop to_dict (run restless_workflow) [" exit"; "quit"] ctx None
    = ([EvInput " exit" None; EvRun " exit"], None, Crashed StepLimitExceeded)
  ∧ loop to_dict (run restless_workflow) ["stop"; "Quit"] ctx None
    = ([EvInput "stop" None; EvRun "stop"; EvAnswer c1 "stopped"; EvSave c1;
        EvInput "Quit" (Some (json_dump 2 (to_dict c1))); EvSave c1],
       Some (json_dump 2 (to_dict c1)), Exited).
Proof.
  cbv zeta. split_and!.
  - apply (exit_words to_dict (run restless_workflow) "EXIT" ["stop"]
             (new_context restless_workflow) None).
    left. reflexivity.
  - pose proof (proj1 (proj2 (proj2
        (exit_words to_dict (run restless_workflow) " exit" ["quit"]
           (new_context restless_workflow) None)))) as Hturn.
    assert (Hrun : run restless_workflow " exit" (new_context restless_workflow)
                   = ((run restless_workflow " exit"
                         (new_context restless_workflow)).1,
                      Raised StepLimitExceeded)) by (by vm_compute).
    rewrite Hrun in Hturn. apply Hturn; by vm_compute.
  - pose proof (proj1 (proj2 (proj2
        (exit_words to_dict (run restless_workflow) "stop" ["Quit"]
           (new_context restless_workflow) None)))) as Hturn.
    assert (Hrun : run restless_workflow "stop" (new_context restless_workflow)
                   = ((run restless_workflow "stop"
                         (new_context restless_workflow)).1,
                      Ok "stopped")) by (by vm_compute).
    rewrite Hrun in Hturn. cbv zeta in Hturn.
    rewrite Hturn by (by vm_compute).
    rewrite (loop_exit to_dict (run restless_workflow) "Quit" []) by reflexivity.
    reflexivity.
Defined.

(** * More properties of the scripts *)

(** ** Sessions of the chat loop *)

(** X1.  Nothing after an exit word is read: the lines that follow it do not
    change what the loop does, what it leaves in [history.json], or how it
    ends. *)
Theorem loop_stops_at_exit {Ctx : Type} (Context_to_dict : Ctx → json)
    (workflow_run : string → Ctx → Ctx * result string)
    (before after : list string) (user_msg : string) (ctx : Ctx)
    (fs : option (list token)) :
  is_exit user_msg = true →
  loop Context_to_dict workflow_run (before ++ user_msg :: after) ctx fs
  = loop Context_to_dict workflow_run (before ++ [user_msg]) ctx fs.
Proof.
  intros Hexit. revert ctx fs.
  induction before as [|m before IH]; intros ctx fs.
  - simpl. by rewrite Hexit.
  - simpl. destruct (is_exit m); [done|].
    destruct (workflow_run m ctx) as [ctx' [response|e]]; [|done].
    by rewrite IH.
Qed.

Lemma loop_stops_at_exit_witness :
  loop to_dict (run restless_workflow) ["stop"; "QUIT"; "go"; "exit"]
    (new_context restless_workflow) None
  = loop to_dict (run restless_workflow) ["stop"; "QUIT"]
      (new_context restless_workflow) None.
Proof.
  apply (loop_stops_at_exit to_dict (run restless_workflow) ["stop"]
           ["go"; "exit"] "QUIT").
  reflexivity.
Defined.

(** X2.  [workflow.run] is called on the lines in the order they were typed,
    with no line skipped, and never on an exit word: the lines it was called
    with are a prefix of the input without exit word.  When the session
    ends by [break], the line after that prefix is an exit word. *)
Theorem turns_are_input_prefix {Ctx : Type} (Context_to_dict : Ctx → json)
    (workflow_run : string → Ctx → Ctx * result string)
    (inputs : list string) (ctx : Ctx) (fs : option (list token)) :
  let r := loop Context_to_dict workflow_run inputs ctx fs in
  (∃ rest, inputs = run_messages r.1.1 ++ rest)
  ∧ Forall (λ user_msg, is_exit user_msg = false) (run_messages r.1.1)
  ∧ (r.2 = Exited →
     ∃ user_msg rest,
       inputs = run_messages r.1.1 ++ user_msg :: rest
       ∧ is_exit user_msg = true).
Proof.
  cbv zeta. revert ctx fs.
  induction inputs as [|m inputs IH]; intros ctx fs.
  - simpl. split_and!; [by exists []|done|done].
  - destruct (is_exit m) eqn:Hexit.
    + rewrite loop_exit by done. simpl.
      split_and!; [by eexists|done|].
      intros _. by exists m, inputs.
    + destruct (workflow_run m ctx) as [ctx' [response|e]] eqn:Hrun.
      * erewrite loop_turn by done. simpl.
        destruct (IH ctx' (Some (json_dump 2 (Context_to_dict ctx'))))
          as ((rest & Hrest) & Hall & Hout).
        split_and!.
        -- exists rest. by rewrite <- Hrest.
        -- by constructor.
        -- intros Hex. destruct (Hout Hex) as (m' & rest' & Heq & Hm').
           exists m', rest'. by rewrite <- Heq.
      * erewrite loop_raise by done. simpl.
        split_and!; [by exists inputs|by constructor|done].
Qed.

Lemma turns_are_input_prefix_witness :
  ∃ user_msg rest,
    ["stop"; "Exit"; "go"]
    = run_messages
        (loop to_dict (run restless_workflow) ["stop"; "Exit"; "go"]
           (new_context restless_workflow) None).1.1
      ++ user_msg :: rest
    ∧ is_exit user_msg = true.
Proof.
  apply (turns_are_input_prefix to_dict (run restless_workflow)
           ["stop"; "Exit"; "go"] (new_context restless_workflow) None).
  vm_compute. reflexivity.
Defined.

(** X3.  A session of turns that all return, ended by an exit word, leaves
    in [history.json] the record of the context obtained by running the
    turns one after the other from the context the session started with;
    if one of the turns raises, the session ends with that exception. *)
Theorem session_runs_turns_in_order {Ctx : Type} (Context_to_dict : Ctx → json)
    (workflow_run : string → Ctx → Ctx * result string)
    (msgs rest : list string) (exit_word : string) (ctx : Ctx)
    (fs : option (list token)) :
  Forall (λ user_msg, is_exit user_msg = false) msgs →
  is_exit exit_word = true →
  let r := loop Context_to_dict workflow_run (msgs ++ exit_word :: rest) ctx fs in
  match run_turns workflow_run msgs ctx with
  | Ok ctx' =>
      r.1.2 = Some (json_dump 2 (Context_to_dict ctx'))
      ∧ r.2 = Exited
      ∧ last_answer r.1.1 ctx = ctx'
      ∧ run_messages r.1.1 = msgs
  | Raised e => r.2 = Crashed e
  end.
Proof.
  intros Hmsgs Hexit. cbv zeta. revert ctx fs.
  induction Hmsgs as [|m msgs Hm _ IH]; intros ctx fs.
  - simpl. rewrite Hexit. simpl. by rewrite save_context_complete.
  - simpl run_turns.
    destruct (workflow_run m ctx) as [ctx' [response|e]] eqn:Hrun.
    + change ((m :: msgs) ++ exit_word :: rest)
        with (m :: (msgs ++ exit_word :: rest)).
      erewrite loop_turn by done. simpl.
      specialize (IH ctx' (Some (json_dump 2 (Context_to_dict ctx')))).
      destruct (run_turns workflow_run msgs ctx') as [ctx''|e]; [|done].
      destruct IH as (? & ? & ? & ?). split_and!; [done..|]. by f_equal.
    + change ((m :: msgs) ++ exit_word :: rest)
        with (m :: (msgs ++ exit_word :: rest)).
      by erewrite loop_raise by done.
Qed.

Lemma session_runs_turns_in_order_witness :
  (loop to_dict (run restless_workflow) ["stop"; "stop"; "exit"; "go"]
     (new_context restless_workflow) None).2 = Exited
  ∧ (loop to_dict (run restless_workflow) ["go"; "exit"]
       (new_context restless_workflow) None).2 = Crashed StepLimitExceeded.
Proof.
  split.
  - pose proof (session_runs_turns_in_order to_dict (run restless_workflow)
                  ["stop"; "stop"] ["go"] "exit"
                  (new_context restless_workflow) None) as H.
    cbv zeta in H.
    assert (Hturns : ∃ ctx', run_turns (run restless_workflow) ["stop"; "stop"]
                               (new_context restless_workflow) = Ok ctx')
      by (eexists; vm_compute; reflexivity).
    destruct Hturns as [ctx' Hturns]. rewrite Hturns in H.
    apply H; [repeat constructor|reflexivity].
  - pose proof (session_runs_turns_in_order to_dict (run restless_workflow)
                  ["go"] [] "exit" (new_context restless_workflow) None) as H.
    cbv zeta in H.
    assert (Hturns : run_turns (run restless_workflow) ["go"]
                       (new_context restless_workflow)
                     = Raised StepLimitExceeded)
      by (vm_compute; reflexivity).
    rewrite Hturns in H. apply H; [repeat constructor|reflexivity].
Defined.

(** X4.  A session in which no turn returns and which the user does not end
    with an exit word leaves [history.json] as it found it: absent if it was
    absent, with the same content otherwise. *)
Theorem idle_session_keeps_file {Ctx : Type} (Context_to_dict : Ctx → json)
    (workflow_run : string → Ctx → Ctx * result string)
    (inputs : list string) (ctx : Ctx) (fs : option (list token)) :
  let r := loop Context_to_dict workflow_run inputs ctx fs in
  existsb is_answer r.1.1 = false →
  r.2 ≠ Exited →
  r.1.2 = fs.
Proof.
  cbv zeta. destruct inputs as [|m inputs]; [done|].
  destruct (is_exit m) eqn:Hexit.
  - rewrite loop_exit by done. simpl. done.
  - destruct (workflow_run m ctx) as [ctx' [response|e]] eqn:Hrun.
    + erewrite loop_turn by done. simpl. done.
    + by erewrite loop_raise by done.
Qed.

Lemma idle_session_keeps_file_witness :
  (loop to_dict (run restless_workflow) ["go"; "stop"; "exit"]
     (new_context restless_workflow) (Some [TNull])).1.2 = Some [TNull].
Proof.
  apply (idle_session_keeps_file to_dict (run restless_workflow)
           ["go"; "stop"; "exit"] (new_context restless_workflow) (Some [TNull])).
  - vm_compute. reflexivity.
  - vm_compute. intros [=].
Defined.

(** X5.  Restarting the script continues the conversation: provided
    [Context.from_dict] restores what [to_dict] wrote, a [chat_loop] started
    on the file a session left when the user ended it runs as the loop would
    have run on, from the context of the last completed turn of that
    session. *)
Theorem restart_resumes_session {Ctx : Type} (Context_new : Ctx)
    (Context_to_dict : Ctx → json) (Context_from_dict : json → result Ctx)
    (workflow_run : string → Ctx → Ctx * result string)
    (inputs next_inputs : list string) (ctx : Ctx) (fs : option (list token)) :
  (∀ c, Context_from_dict (Context_to_dict c) = Ok c) →
  let r := loop Context_to_dict workflow_run inputs ctx fs in
  r.2 = Exited →
  chat_loop Context_new Context_to_dict Context_from_dict workflow_run
    next_inputs r.1.2
  = loop Context_to_dict workflow_run next_inputs (last_answer r.1.1 ctx) r.1.2.
Proof.
  intros Hrestore. cbv zeta. intros Hout.
  destruct (loop_final_save Context_to_dict workflow_run inputs ctx fs Hout)
    as (_ & _ & _ & _ & _ & _ & Hfs).
  apply chat_loop_loaded. rewrite Hfs. unfold load_context.
  rewrite json_load_dump. simpl. apply Hrestore.
Qed.

Lemma restart_resumes_session_witness :
  let r := loop to_dict (run restless_workflow) ["stop"; "exit"]
             (new_context restless_workflow) None in
  chat_loop (new_context restless_workflow) to_dict from_dict
    (run restless_workflow) ["stop"; "quit"] r.1.2
  = loop to_dict (run restless_workflow) ["stop"; "quit"]
      (last_answer r.1.1 (new_context restless_workflow)) r.1.2.
Proof.
  cbv zeta.
  apply (restart_resumes_session (new_context restless_workflow) to_dict
           from_dict (run restless_workflow) ["stop"; "exit"] ["stop"; "quit"]
           (new_context restless_workflow) None).
  - exact from_dict_to_dict.
  - vm_compute. reflexivity.
Defined.

(** ** Files that are not a record *)

Lemma parse_value_nil (fuel : nat) : parse_value fuel [] = None.
Proof. by destruct fuel. Qed.

Lemma parse_items_nil (fuel : nat) : parse_items fuel [] = None.
Proof. destruct fuel; [done|]. simpl. by rewrite parse_value_nil. Qed.

Lemma parse_members_nil (fuel : nat) : parse_members fuel [] = None.
Proof. by destruct fuel. Qed.

(** A successful parse is not changed by more fuel, nor by more text after
    the text it was run on. *)
Lemma parse_stable (fuel : nat) :
  (∀ ts v r fuel' s,
     parse_value fuel ts = Some (v, r) → fuel ≤ fuel' →
     parse_value fuel' (ts ++ s) = Some (v, r ++ s))
  ∧ (∀ ts vs r fuel' s,
       parse_items fuel ts = Some (vs, r) → fuel ≤ fuel' →
       parse_items fuel' (ts ++ s) = Some (vs, r ++ s))
  ∧ (∀ ts kvs r fuel' s,
       parse_members fuel ts = Some (kvs, r) → fuel ≤ fuel' →
       parse_members fuel' (ts ++ s) = Some (kvs, r ++ s)).
Proof.
  induction fuel as [|fuel (IHv & IHi & IHm)]; [done|].
  split_and!.
  - intros ts v r fuel' s H Hle.
    destruct fuel' as [|fuel']; [lia|]. assert (fuel ≤ fuel') by lia.
    destruct ts as [|t ts]; [done|].
    destruct t; simpl in H; try done; try (by simplify_eq).
    + (* a list *)
      destruct ts as [|t ts].
      { by rewrite parse_items_nil in H. }
      destruct t;
        try (by simplify_eq);
        (destruct (parse_items fuel _) as [[l r']|] eqn:E; [|done];
         simplify_eq; eapply IHi in E; [|eassumption];
         simpl in *; by rewrite E).
    + (* a dict *)
      destruct ts as [|t ts].
      { by rewrite parse_members_nil in H. }
      destruct t;
        try (by simplify_eq);
        (destruct (parse_members fuel _) as [[l r']|] eqn:E; [|done];
         simplify_eq; eapply IHm in E; [|eassumption];
         simpl in *; by rewrite E).
  - intros ts vs r fuel' s H Hle.
    destruct fuel' as [|fuel']; [lia|]. assert (fuel ≤ fuel') by lia.
    simpl in H. destruct (parse_value fuel ts) as [[v r0]|] eqn:E; [|done].
    eapply IHv in E; [|eassumption]. simpl. rewrite E.
    destruct r0 as [|t r0]; [done|]. destruct t; try done.
    + by simplify_eq.
    + destruct (parse_items fuel r0) as [[l r']|] eqn:E2; [|done].
      simplify_eq. eapply IHi in E2; [|eassumption]. simpl. by rewrite E2.
  - intros ts kvs r fuel' s H Hle.
    destruct fuel' as [|fuel']; [lia|]. assert (fuel ≤ fuel') by lia.
    simpl in H. destruct ts as [|t ts]; [done|]. destruct t; try done.
    destruct ts as [|t ts]; [done|]. destruct t; try done.
    destruct (parse_value fuel ts) as [[v r0]|] eqn:E; [|done].
    eapply IHv in E; [|eassumption]. simpl. rewrite E.
    destruct r0 as [|t r0]; [done|]. destruct t; try done.
    + by simplify_eq.
    + destruct (parse_members fuel r0) as [[l r']|] eqn:E2; [|done].
      simplify_eq. eapply IHm in E2; [|eassumption]. simpl. by rewrite E2.
Qed.

Lemma container_last (opening closing : token) (indent : option nat)
    (level : nat) (items : list (list token)) :
  ∃ l, container opening closing indent level items = l ++ [closing].
Proof.
  unfold container. destruct items as [|first others].
  - by exists [opening].
  - exists (opening :: newline indent (S level) ++ first
              ++ flat_map (λ item, TComma :: newline indent (S level) ++ item)
                   others
              ++ newline indent level).
    simpl. by rewrite <- !app_assoc.
Qed.

(** What [json.dump] writes ends with a token that is not white space. *)
Lemma encode_last (indent : option nat) (level : nat) (v : json) :
  ∃ l t, encode indent level v = l ++ [t] ∧ is_newline t = false.
Proof.
  destruct v as [|[]| | |l|m]; try (by eexists [], _).
  - simpl. destruct (container_last TLBracket TRBracket indent level
                       (map (encode indent (S level)) l)) as [l' ->].
    by eexists _, _.
  - rewrite encode_dict.
    destruct (container_last TLBrace TRBrace indent level
                (map (λ kv, TStr kv.1 :: TColon :: encode indent (S level) kv.2)
                     (map_to_list m))) as [l' ->].
    by eexists _, _.
Qed.

Lemma json_load_prefix (indent : nat) (v : json) (n : nat) :
  n < length (json_dump indent v) →
  json_load (take n (json_dump indent v)) = Raised JSONDecodeError.
Proof.
  unfold json_dump. intros Hn.
  destruct (encode_last (Some indent) 0 v) as (l & t & He & Ht).
  pose proof (strip_encode (Some indent) v 0 0) as Hstrip.
  rewrite He in Hn, Hstrip |- *. rewrite length_app in Hn. simpl in Hn.
  rewrite take_app_le by lia.
  rewrite <- (take_drop n l), <- app_assoc, strip_app in Hstrip.
  rewrite strip_app in Hstrip.
  assert (Hlast : strip [t] = [t]) by (by rewrite strip_cons).
  rewrite Hlast in Hstrip. clear Hlast.
  unfold json_load.
  set (sp := strip (take n l)) in *. set (ss := strip (drop n l)) in *.
  destruct (parse_value (S (length sp)) sp) as [[v' r]|] eqn:E; [|done].
  destruct r as [|? ?]; [|done]. exfalso.
  destruct (parse_stable (S (length sp))) as (Hstable & _ & _).
  apply (Hstable sp v' [] (S (length sp) + length (encode None 0 v)) (ss ++ [t]))
    in E; [|lia].
  rewrite Hstrip in E.
  pose proof (parse_encode v (S (length sp) + length (encode None 0 v)) 0 [])
    as Hv.
  rewrite app_nil_r in Hv. rewrite Hv in E by lia.
  simplify_eq. by destruct ss.
Qed.

(** X6.  A save that is interrupted after the file was opened and before the
    last chunk was written leaves a file that [load_context] does not take
    for a record, whatever the context and wherever the save stopped:
    [load_context] raises JSONDecodeError; it neither returns a new context
    nor restores a truncated one.  A [chat_loop] started on that file ends
    with that error before it reads a line, and leaves the file as it is. *)
Theorem interrupted_save_unreadable {Ctx : Type} (Context_new : Ctx)
    (Context_to_dict : Ctx → json) (Context_from_dict : json → result Ctx)
    (workflow_run : string → Ctx → Ctx * result string)
    (ctx : Ctx) (fs : option (list token)) (n : nat) (inputs : list string) :
  n < length (json_dump 2 (Context_to_dict ctx)) →
  let left := interrupted_save Context_to_dict (S n) ctx fs in
  load_context Context_new Context_from_dict left = Raised JSONDecodeError
  ∧ chat_loop Context_new Context_to_dict Context_from_dict workflow_run
      inputs left
    = ([], left, Crashed JSONDecodeError).
Proof.
  intros Hn. cbv zeta.
  assert (Hload : load_context Context_new Context_from_dict
                    (interrupted_save Context_to_dict (S n) ctx fs)
                  = Raised JSONDecodeError).
  { rewrite interrupted_save_prefix. unfold load_context.
    by rewrite json_load_prefix. }
  split; [done|]. unfold chat_loop. by rewrite Hload.
Qed.

Lemma interrupted_save_unreadable_witness :
  load_context (new_context restless_workflow) from_dict
    (interrupted_save to_dict 12 (new_context restless_workflow) None)
  = Raised JSONDecodeError.
Proof.
  apply (interrupted_save_unreadable (new_context restless_workflow) to_dict
           from_dict (run restless_workflow) (new_context restless_workflow)
           None 11 []).
  vm_compute. lia.
Defined.

(** X7.  [load_context] reads the record whatever its indentation and
    whatever white space follows it, and rejects a file in which anything
    else follows the record: it raises JSONDecodeError then. *)
Theorem load_context_trailing_text {Ctx : Type} (Context_new : Ctx)
    (Context_from_dict : json → result Ctx) (record : json)
    (indent : nat) (extra : list token) :
  load_context Context_new Context_from_dict
    (Some (json_dump indent record ++ extra))
  = match strip extra with
    | [] => Context_from_dict record
    | _ :: _ => Raised JSONDecodeError
    end.
Proof.
  unfold load_context, json_load, json_dump.
  rewrite strip_app, (strip_encode _ _ 0 0).
  rewrite parse_encode by (rewrite length_app; lia).
  by destruct (strip extra).
Qed.

(** ** [set_name] *)

(** X8.  The last [set_name] wins: on a context whose state is a mapping,
    setting a name and then another leaves the context that setting the
    second alone leaves, and setting the same name again changes nothing. *)
Theorem set_name_last_wins (ctx : SessionContext) (first second : string)
    (st : gmap string json) :
  ctx_get "state" ctx = Ok (JDict st) →
  ∃ ctx1,
    ToolsAndState.set_name ctx first = Ok (ctx1, "Name set to " +:+ first)
    ∧ ToolsAndState.set_name ctx1 second = ToolsAndState.set_name ctx second
    ∧ ToolsAndState.set_name ctx1 first = Ok (ctx1, "Name set to " +:+ first).
Proof.
  intros Hst. unfold ToolsAndState.set_name. rewrite Hst. simpl.
  eexists. split; [reflexivity|].
  unfold ctx_get, ctx_set. simpl. rewrite lookup_insert_eq. simpl.
  by rewrite !insert_insert_eq.
Qed.

Lemma set_name_last_wins_witness :
  ∃ ctx1,
    ToolsAndState.set_name
      (ctx_set "state" (JDict {[ "name" := JStr "unset" ]})
         (new_context restless_workflow)) "Ayan"
    = Ok (ctx1, "Name set to Ayan")
    ∧ ToolsAndState.set_name ctx1 "Jamil"
      = ToolsAndState.set_name
          (ctx_set "state" (JDict {[ "name" := JStr "unset" ]})
             (new_context restless_workflow)) "Jamil".
Proof.
  destruct (set_name_last_wins
              (ctx_set "state" (JDict {[ "name" := JStr "unset" ]})
                 (new_context restless_workflow))
              "Ayan" "Jamil" {[ "name" := JStr "unset" ]})
    as (ctx1 & H1 & H2 & _); [reflexivity|].
  exists ctx1. split; assumption.
Defined.

(** X9.  When the value stored under "state" is not a mapping (a text, a
    number, a list, ...), the item assignment of [set_name] fails:
    [set_name] raises TypeError and returns neither a context nor a
    confirmation. *)
Theorem set_name_needs_mapping (ctx : SessionContext) (name : string) (v : json) :
  state ctx !! "state" = Some v →
  (∀ d, v ≠ JDict d) →
  ToolsAndState.set_name ctx name = Raised TypeError.
Proof.
  intros Hv Hnot. unfold ToolsAndState.set_name, ctx_get. rewrite Hv. simpl.
  destruct v; try done. by destruct (Hnot m).
Qed.

Lemma set_name_needs_mapping_witness :
  ToolsAndState.set_name
    (ctx_set "state" (JStr "Ayan") (new_context restless_workflow)) "Jamil"
  = Raised TypeError.
Proof.
  apply (set_name_needs_mapping _ "Jamil" (JStr "Ayan")); [reflexivity|done].
Defined.

(** ** The exit words *)

Lemma lower_char_letters (c : ascii) :
  (lower_char c = "e"%char ↔ c = "e"%char ∨ c = "E"%char)
  ∧ (lower_char c = "x"%char ↔ c = "x"%char ∨ c = "X"%char)
  ∧ (lower_char c = "i"%char ↔ c = "i"%char ∨ c = "I"%char)
  ∧ (lower_char c = "t"%char ↔ c = "t"%char ∨ c = "T"%char)
  ∧ (lower_char c = "q"%char ↔ c = "q"%char ∨ c = "Q"%char)
  ∧ (lower_char c = "u"%char ↔ c = "u"%char ∨ c = "U"%char).
Proof.
  destruct c as [[] [] [] [] [] [] [] []]; vm_compute; split_and!;
    first [by intros [[=]|[=]]|intros [=]; by auto].
Qed.

(** X10.  The inputs that end the session are the 32 spellings of "exit"
    and "quit" in upper and lower case, letter by letter, and nothing else:
    four characters, no white space around them. *)
Theorem exit_spellings (user_msg : string) :
  is_exit user_msg = true ↔
  ∃ a b c d : ascii,
    user_msg = String a (String b (String c (String d "")))
    ∧ (((a = "e" ∨ a = "E") ∧ (b = "x" ∨ b = "X")
        ∧ (c = "i" ∨ c = "I") ∧ (d = "t" ∨ d = "T"))
       ∨ ((a = "q" ∨ a = "Q") ∧ (b = "u" ∨ b = "U")
          ∧ (c = "i" ∨ c = "I") ∧ (d = "t" ∨ d = "T")))%char.
Proof.
  rewrite is_exit_spec. split.
  - intros Hword.
    destruct user_msg as [|a [|b [|c [|d [|? ?]]]]];
      try (by destruct Hword as [[=]|[=]]).
    exists a, b, c, d. split; [done|].
    destruct (lower_char_letters a) as (Hae & _ & _ & _ & Haq & _).
    destruct (lower_char_letters b) as (_ & Hbx & _ & _ & _ & Hbu).
    destruct (lower_char_letters c) as (_ & _ & Hci & _ & _ & _).
    destruct (lower_char_letters d) as (_ & _ & _ & Hdt & _ & _).
    simpl in Hword. destruct Hword as [[=]|[=]]; [left|right];
      split_and!; (apply Hae || apply Hbx || apply Hci || apply Hdt
                   || apply Haq || apply Hbu); assumption.
  - intros (a & b & c & d & -> & Hletters). simpl.
    destruct (lower_char_letters a) as (Hae & _ & _ & _ & Haq & _).
    destruct (lower_char_letters b) as (_ & Hbx & _ & _ & _ & Hbu).
    destruct (lower_char_letters c) as (_ & _ & Hci & _ & _ & _).
    destruct (lower_char_letters d) as (_ & _ & _ & Hdt & _ & _).
    destruct Hletters as [(Ha & Hb & Hc & Hd)|(Ha & Hb & Hc & Hd)].
    + left. apply Hae in Ha. apply Hbx in Hb. apply Hci in Hc. apply Hdt in Hd.
      by rewrite Ha, Hb, Hc, Hd.
    + right. apply Haq in Ha. apply Hbu in Hb. apply Hci in Hc. apply Hdt in Hd.
      by rewrite Ha, Hb, Hc, Hd.
Qed.

Lemma exit_spellings_witness :
  is_exit "qUiT" = true
  ∧ ∃ a b c d : ascii, "ExIt" = String a (String b (String c (String d ""))).
Proof.
  split.
  - apply exit_spellings. exists "q"%char, "U"%char, "i"%char, "T"%char.
    split; [reflexivity|]. right. auto.
  - destruct (proj1 (exit_spellings "ExIt") eq_refl) as (a & b & c & d & H & _).
    by exists a, b, c, d.
Defined.

(** ** [4_streaming.py]: the event loop *)

Lemma string_app_assoc (s1 s2 s3 : string) :
  (s1 +:+ s2) +:+ s3 = s1 +:+ (s2 +:+ s3).
Proof.
  induction s1 as [|c s1 IH]; [done|].
  change (String c ((s1 +:+ s2) +:+ s3) = String c (s1 +:+ s2 +:+ s3)).
  by f_equal.
Qed.

Lemma string_app_nil_r (s : string) : s +:+ "" = s.
Proof.
  induction s as [|c s IH]; [done|].
  change (String c (s +:+ "") = String c s). by f_equal.
Qed.

Lemma substring_length (n : nat) (s : string) :
  String.length (String.substring 0 n s) = n `min` String.length s.
Proof.
  revert n. induction s as [|c s IH]; intros [|n]; simpl; try done.
  by rewrite IH.
Qed.

Lemma substring_prefix (n : nat) (s : string) :
  ∃ rest, s = String.substring 0 n s +:+ rest.
Proof.
  revert n. induction s as [|c s IH]; intros [|n]; simpl;
    try (by eexists).
  destruct (IH n) as [rest Hrest]. exists rest.
  change (String c s = String c (String.substring 0 n s +:+ rest)).
  by f_equal.
Qed.

Lemma substring_all (n : nat) (s : string) :
  String.length s ≤ n → String.substring 0 n s = s.
Proof.
  revert n. induction s as [|c s IH]; intros [|n] Hn; simpl in *;
    try done; try lia.
  rewrite IH; [done|lia].
Qed.

Lemma concat_cons (x : string) (xs : list string) :
  String.concat "" (x :: xs) = x +:+ String.concat "" xs.
Proof. destruct xs; [by rewrite string_app_nil_r|done]. Qed.

Section StreamLoop.

Import Streaming.

Lemma stream_events_response (events : list stream_event) (con : console) :
  agent_response (stream_events events con)
  = agent_response con +:+ String.concat "" (deltas events).
Proof.
  revert con. unfold stream_events.
  induction events as [|event events IH]; intros con.
  - simpl. by rewrite string_app_nil_r.
  - cbn [foldl]. rewrite IH. destruct event; [|done..].
    change (deltas (AgentStream delta :: events))
      with (delta :: deltas events).
    rewrite concat_cons. cbn [on_event agent_response].
    by rewrite string_app_assoc.
Qed.

Lemma stream_events_stdout (events : list stream_event) (con : console) :
  existsb is_tool_result events = false →
  stdout (stream_events events con)
  = stdout con +:+ String.concat "" (deltas events).
Proof.
  revert con. unfold stream_events.
  induction events as [|event events IH]; intros con Hno.
  - simpl. by rewrite string_app_nil_r.
  - cbn [foldl]. destruct event; [|done|by apply IH].
    rewrite IH by done.
    change (deltas (AgentStream delta :: events))
      with (delta :: deltas events).
    rewrite concat_cons. cbn [on_event stdout].
    by rewrite string_app_assoc.
Qed.

(** X11.  The text [main] collects in [agent_response] is the deltas of the
    [AgentStream] events, concatenated in the order of the stream; the
    tool results and the other events of the stream, wherever they come,
    leave it as it is. *)
Theorem streamed_response (events : list stream_event) (final_response : string) :
  agent_response (main events final_response) = String.concat "" (deltas events)
  ∧ ∀ before after name kwargs output,
      events = before ++ ToolCallResult name kwargs output :: after →
      agent_response (main events final_response)
      = agent_response (main (before ++ after) final_response).
Proof.
  assert (Hmain : ∀ evs, agent_response (main evs final_response)
                         = String.concat "" (deltas evs)).
  { intros evs. unfold main. simpl. by rewrite stream_events_response. }
  split; [apply Hmain|].
  intros before after name kwargs output ->. rewrite !Hmain.
  unfold deltas. by rewrite !omap_app.
Qed.

Lemma streamed_response_witness :
  agent_response
    (main [AgentStream "It is "; ToolCallResult "search" "{}" "sunny";
           AgentStream "sunny."] "It is sunny.")
  = agent_response
      (main ([AgentStream "It is "] ++ [AgentStream "sunny."]) "It is sunny.").
Proof.
  apply (streamed_response
           [AgentStream "It is "; ToolCallResult "search" "{}" "sunny";
            AgentStream "sunny."] "It is sunny.")
    with (name := "search") (kwargs := "{}") (output := "sunny").
  reflexivity.
Defined.

(** X12.  When the stream has no tool result, what [main] prints is the
    question, then exactly the text collected in [agent_response], then the
    line of the final response: nothing of the answer is printed twice or
    left out while it streams. *)
Theorem streamed_output (events : list stream_event) (final_response : string) :
  existsb is_tool_result events = false →
  stdout (main events final_response)
  = print "Client: What's the weather like in San Francisco?" ""
    +:+ agent_response (main events final_response)
    +:+ line_break +:+ line_break +:+ "Agent (final): " +:+ final_response
    +:+ line_break.
Proof.
  intros Hno. unfold main. simpl agent_response. simpl stdout.
  rewrite stream_events_response, stream_events_stdout by done.
  unfold print. simpl. rewrite !string_app_assoc. done.
Qed.

Lemma streamed_output_witness :
  stdout (main [AgentStream "Sunny"; OtherEvent; AgentStream "."] "Sunny.")
  = print "Client: What's the weather like in San Francisco?" ""
    +:+ "Sunny." +:+ line_break +:+ line_break
    +:+ "Agent (final): Sunny." +:+ line_break.
Proof.
  rewrite (streamed_output [AgentStream "Sunny"; OtherEvent; AgentStream "."]
             "Sunny."); reflexivity.
Defined.

(** X13.  For a tool result the loop prints three lines and leaves
    [agent_response] alone.  The snippet it shows is the beginning of the
    tool's output, 200 characters at most, and the whole output when that
    has 200 characters or fewer; "..." follows the snippet in both cases,
    also when nothing was cut. *)
Theorem tool_result_snippet (con : console) (name kwargs output : string) :
  let con' := on_event con (ToolCallResult name kwargs output) in
  agent_response con' = agent_response con
  ∧ stdout con'
    = stdout con +:+ line_break +:+ "[Tool Used: " +:+ name +:+ "]" +:+ line_break
      +:+ "Query: " +:+ kwargs +:+ line_break
      +:+ "Result snippet: " +:+ snippet output +:+ "..." +:+ line_break
  ∧ String.length (snippet output) = 200 `min` String.length output
  ∧ (∃ rest, output = snippet output +:+ rest)
  ∧ (String.length output ≤ 200 → snippet output = output).
Proof.
  cbv zeta. split_and!.
  - done.
  - simpl. unfold print. by rewrite !string_app_assoc.
  - apply substring_length.
  - apply substring_prefix.
  - apply substring_all.
Qed.

Lemma tool_result_snippet_witness : snippet "sunny, 18C" = "sunny, 18C".
Proof.
  apply (tool_result_snippet {| agent_response := ""; stdout := "" |}
           "search" "{}" "sunny, 18C").
  vm_compute. lia.
Defined.

End StreamLoop.

(** ** Saved files and the number of saves *)

(** X14.  The file adds nothing and loses nothing: what [load_context] makes
    of a file that [save_context] wrote is what [Context.from_dict] makes of
    the record that [Context.to_dict] built, whatever the record is and
    whatever the file held before. *)
Theorem saved_file_loads_record {Ctx : Type} (Context_new : Ctx)
    (Context_to_dict : Ctx → json) (Context_from_dict : json → result Ctx)
    (ctx : Ctx) (fs : option (list token)) :
  load_context Context_new Context_from_dict
    (save_context Context_to_dict ctx fs)
  = Context_from_dict (Context_to_dict ctx)
  ∧ ∃ text,
      save_context Context_to_dict ctx fs = Some text
      ∧ json_load text = Ok (Context_to_dict ctx).
Proof.
  split; [apply load_context_saved|].
  rewrite save_context_complete. eexists. split; [done|].
  apply json_load_dump.
Qed.

(** X15.  The loop saves once for every turn that returns, and once more
    when the user ends the session; it never saves otherwise. *)
Theorem one_save_per_turn {Ctx : Type} (Context_to_dict : Ctx → json)
    (workflow_run : string → Ctx → Ctx * result string)
    (inputs : list string) (ctx : Ctx) (fs : option (list token)) :
  let r := loop Context_to_dict workflow_run inputs ctx fs in
  length (List.filter is_save r.1.1)
  = length (List.filter is_answer r.1.1)
    + match r.2 with
      | Exited => 1
      | Crashed _ => 0
      end.
Proof.
  cbv zeta. revert ctx fs.
  induction inputs as [|m inputs IH]; intros ctx fs; [done|].
  destruct (is_exit m) eqn:Hexit.
  - by rewrite loop_exit by done.
  - destruct (workflow_run m ctx) as [ctx' [response|e]] eqn:Hrun.
    + erewrite loop_turn by done. simpl. by rewrite IH.
    + by erewrite loop_raise by done.
Qed.
